(** * star-chain: the in-memory ledger of [blockchain.js]

    A shallow embedding of the [Blockchain] class (constructor,
    [initializeChain], [getChainHeight], [_addBlock],
    [requestMessageOwnershipVerification], [submitStar], [getBlockByHash],
    [getBlockByHeight], [getStarsByWalletAddress], [validateChain]) and the
    properties of it that the specification states.

    Conventions of the embedding.
    - Every method returns a promise.  A promise is modelled by its state
      ([Pending], [Fulfilled v], [Rejected reason]); [resolve] and [reject]
      settle a pending promise and are no-ops on a settled one, and, as in
      JavaScript, neither of them ends the executor that calls it.
    - The methods are modelled at quiescence: a call is followed until the
      microtask queue is empty before the next call starts.  Where a method
      hands out an array and keeps writing to it from callbacks that run
      later ([validateChain], [getStarsByWalletAddress]) the array lives in a
      store and the promise is fulfilled with a reference into that store.
    - [new Date().getTime()] is an input of the operation that reads it.
    - A JavaScript string is modelled by its UTF-8 bytes.  The ledger only
      splits strings at colons, concatenates and compares them, cuts the
      decimal clock text and hands them to [parseInt]; the first four are the
      same on the bytes as on the characters, and [parseInt] recognises white
      space in its encoded form.
    - JavaScript numbers are integers or [NaN].  The only arithmetic of the
      ledger is [currentTime - time > 300] on parsed integers, and rounding
      to doubles is monotone and fixes the integers involved on the right
      hand side, so the comparison has the same truth value on exact
      integers. *)

From Stdlib Require Import ZArith NArith List String Ascii Bool Lia.
From stdpp Require Import base numbers option list strings pretty.

Local Open Scope string_scope.
Local Open Scope Z_scope.

(** ** JavaScript strings and numbers *)

Module Js.

(** [s.split(sep)] for a one-character separator. *)
Fixpoint split (sep : ascii) (s : string) : list string :=
  match s with
  | EmptyString => [EmptyString]
  | String c rest =>
      if Ascii.eqb c sep then EmptyString :: split sep rest
      else match split sep rest with
           | [] => [String c EmptyString]
           | w :: ws => String c w :: ws
           end
  end.

(** [s.slice(0, -3)]: the string without its last three characters. *)
Definition slice_0_neg3 (s : string) : string :=
  substring 0 (String.length s - 3) s.

(** A number: an integer or [NaN]. *)
Inductive number := NaN | Num (z : Z).

Definition sub (x y : number) : number :=
  match x, y with
  | Num a, Num b => Num (a - b)
  | _, _ => NaN
  end.

(** [x > y]; false as soon as one side is [NaN]. *)
Definition gt (x y : number) : bool :=
  match x, y with
  | Num a, Num b => a >? b
  | _, _ => false
  end.

(** The white space [parseInt] skips is the white space and the line
    terminators of the language.  Encoded in one byte: tab, line feed,
    vertical tab, form feed, carriage return, space. *)
Definition is_whitespace (c : ascii) : bool :=
  let n := nat_of_ascii c in
  ((9 <=? n) && (n <=? 13) || (n =? 32))%nat.

(** The first byte of a white space character encoded in more bytes. *)
Definition is_whitespace_lead (c : ascii) : bool :=
  let n := nat_of_ascii c in
  ((n =? 194) || (n =? 225) || (n =? 226) || (n =? 227) || (n =? 239))%nat.

(** Encoded in two bytes: the no-break space U+00A0. *)
Definition is_whitespace2 (c1 c2 : ascii) : bool :=
  ((nat_of_ascii c1 =? 194) && (nat_of_ascii c2 =? 160))%nat.

(** Encoded in three bytes: U+1680, U+2000 to U+200A, the line and
    paragraph separators U+2028 and U+2029, U+202F, U+205F, U+3000 and the
    byte order mark U+FEFF. *)
Definition is_whitespace3 (c1 c2 c3 : ascii) : bool :=
  let n1 := nat_of_ascii c1 in
  let n2 := nat_of_ascii c2 in
  let n3 := nat_of_ascii c3 in
  ((n1 =? 225) && (n2 =? 154) && (n3 =? 128)
   || (n1 =? 226) && (n2 =? 128)
      && ((128 <=? n3) && (n3 <=? 138)
          || (n3 =? 168) || (n3 =? 169) || (n3 =? 175))
   || (n1 =? 226) && (n2 =? 129) && (n3 =? 159)
   || (n1 =? 227) && (n2 =? 128) && (n3 =? 128)
   || (n1 =? 239) && (n2 =? 187) && (n3 =? 191))%nat.

Fixpoint trim_start (s : string) : string :=
  match s with
  | String c1 rest1 =>
      if is_whitespace c1 then trim_start rest1
      else if is_whitespace_lead c1 then
        match rest1 with
        | String c2 rest2 =>
            if is_whitespace2 c1 c2 then trim_start rest2
            else match rest2 with
                 | String c3 rest3 =>
                     if is_whitespace3 c1 c2 c3 then trim_start rest3 else s
                 | EmptyString => s
                 end
        | EmptyString => s
        end
      else s
  | EmptyString => s
  end.

(** The value of [c] as a digit in the given radix (10 or 16). *)
Definition digit (radix : Z) (c : ascii) : option Z :=
  let n := Z.of_nat (nat_of_ascii c) in
  let v :=
    if (48 <=? n) && (n <=? 57) then Some (n - 48)
    else if (97 <=? n) && (n <=? 102) then Some (n - 87)
    else if (65 <=? n) && (n <=? 70) then Some (n - 55)
    else None in
  match v with
  | Some d => if d <? radix then Some d else None
  | None => None
  end.

(** The longest prefix of digits, read in [radix]; [None] if it is empty. *)
Fixpoint digits (radix : Z) (acc : option Z) (s : string) : option Z :=
  match s with
  | EmptyString => acc
  | String c rest =>
      match digit radix c with
      | Some d => digits radix (Some (default 0 acc * radix + d)) rest
      | None => acc
      end
  end.

(** [parseInt(s)] with no radix argument. *)
Definition parseInt_string (s : string) : number :=
  let s := trim_start s in
  let '(sign, s) :=
    match s with
    | String "-" rest => (-1, rest)
    | String "+" rest => (1, rest)
    | _ => (1, s)
    end in
  let '(radix, s) :=
    match s with
    | String "0" (String "x" rest) => (16, rest)
    | String "0" (String "X" rest) => (16, rest)
    | _ => (10, s)
    end in
  match digits radix None s with
  | Some v => Num (sign * v)
  | None => NaN
  end.

(** [parseInt(x)] where [x] is a string or [undefined] ([None]);
    [undefined] reads as the text "undefined", which has no digits. *)
Definition parseInt (x : option string) : number :=
  match x with
  | Some s => parseInt_string s
  | None => NaN
  end.

(** [new Date().getTime().toString().slice(0, -3)] for the clock reading
    [ms] (milliseconds since the epoch). *)
Definition seconds_text (ms : N) : string := slice_0_neg3 (pretty ms).

End Js.

(** ** Promises *)

Inductive PromiseState (A : Type) :=
| Pending
| Fulfilled (v : A)
| Rejected (reason : string).
Arguments Pending {A}.
Arguments Fulfilled {A} v.
Arguments Rejected {A} reason.

(** [resolve]/[reject] on a promise in state [p]: the first one wins. *)
Definition settle {A} (p outcome : PromiseState A) : PromiseState A :=
  match p with
  | Pending => outcome
  | _ => p
  end.

(** An operation that settles its promise with a reference to variables of
    its closure and leaves callbacks in the microtask queue.  [locals] are the
    closure's variables when the executor returns, [result] the promise (its
    value reads the array out of the live store: it is a reference, not a
    copy), [microtasks] the queued callbacks in the order the event loop runs
    them. *)
Record Async (S A : Type) := mkAsync {
  locals : S;
  result : PromiseState (S -> A);
  microtasks : list (S -> S);
  (* how many of the microtasks are queued ahead of the continuation of a
     caller that awaits the promise as soon as the method returns it *)
  ahead_of_caller : nat
}.
Arguments mkAsync {S A}.
Arguments locals {S A}.
Arguments result {S A}.
Arguments microtasks {S A}.
Arguments ahead_of_caller {S A}.

(** The store after the given callbacks have run, in order. *)
Definition run_jobs {S} (jobs : list (S -> S)) (s : S) : S :=
  fold_left (fun s job => job s) jobs s.

(** What the referenced array holds after the first [n] microtasks. *)
Definition value_after {S A} (n : nat) (a : Async S A) : option A :=
  match result a with
  | Fulfilled ref => Some (ref (run_jobs (take n (microtasks a)) (locals a)))
  | _ => None
  end.

(** ... at the moment the promise is settled, *)
Definition value_when_settled {S A} (a : Async S A) : option A :=
  value_after 0 a.

(** ... when the continuation of an awaiting caller runs, *)
Definition value_seen_by_caller {S A} (a : Async S A) : option A :=
  value_after (ahead_of_caller a) a.

(** ... and once every queued callback has run. *)
Definition value_at_quiescence {S A} (a : Async S A) : option A :=
  value_after (length (microtasks a)) a.

(** ** Blocks *)

Module Block.

Record t := mk {
  hash : option string;  (* [null] until the block is hashed *)
  height : Z;
  body : string;
  time : string;
  previousBlockHash : option string  (* [null] for a block with no parent *)
}.

Definition set_hash (v : option string) (b : t) : t :=
  mk v (height b) (body b) (time b) (previousBlockHash b).
Definition set_height (v : Z) (b : t) : t :=
  mk (hash b) v (body b) (time b) (previousBlockHash b).
Definition set_time (v : string) (b : t) : t :=
  mk (hash b) (height b) (body b) v (previousBlockHash b).
Definition set_previousBlockHash (v : option string) (b : t) : t :=
  mk (hash b) (height b) (body b) (time b) v.

#[global] Instance eq_dec : EqDecision t.
Proof. solve_decision. Defined.

End Block.

(** The payload of a block: [{data: ...}] for the genesis block,
    [{address, message, signature, star}] for a star. *)
Inductive Payload (Star : Type) :=
| GenesisData (data : string)
| StarData (address message signature : string) (star : Star).
Arguments GenesisData {Star} data.
Arguments StarData {Star} address message signature star.

(** [blockData.address]: [undefined] on a payload without the field. *)
Definition payload_address {Star} (p : Payload Star) : option string :=
  match p with
  | GenesisData _ => None
  | StarData a _ _ _ => Some a
  end.

(** [blockData.star]. *)
Definition payload_star {Star} (p : Payload Star) : option Star :=
  match p with
  | GenesisData _ => None
  | StarData _ _ _ s => Some s
  end.

(** The answer of [bitcoinMessage.verify]: a boolean, or an exception, kept
    as the text [error.toString()] gives. *)
Inductive VerifyResult := VTrue | VFalse | VThrow (error : string).

(** The libraries the ledger calls: [crypto-js/sha256], [JSON.stringify] on a
    block object, [bitcoinjs-message], and the encoding of a payload into a
    block body with its inverse ([hex2ascii] then [JSON.parse]). *)
Class Externals (Star : Type) := {
  SHA256 : string -> string;
  JSON_stringify : Block.t -> string;
  bitcoinMessage_verify : string -> string -> string -> VerifyResult;
  encode_body : Payload Star -> string;
  decode_body : string -> option (Payload Star)
}.

(** ** The ledger *)

Record Blockchain := mkBlockchain {
  chain : list Block.t;
  height : Z
}.

(** The reasons [submitStar] rejects with. *)
Definition expired_error : string :=
  "Error: more than 5 minutes has elapsed beyond owners timestamp within message".
Definition signature_error : string := "Error: signature does not match".
Definition verification_error (error : string) : string :=
  "An error was encountered while trying to verify the signature: " +:+ error.

(** The closure variables of [validateChain]. *)
Record ValidateLocals := mkValidateLocals {
  errorLog : list string;
  previousHash : option string
}.

Definition push_error (msg : string) (s : ValidateLocals) : ValidateLocals :=
  mkValidateLocals (errorLog s ++ [msg]) (previousHash s).

(** ['...' + block.hash]: [null] prints as the text "null". *)
Definition hash_text (h : option string) : string := default "null" h.

(** What the executor of [submitStar] does that can be observed. *)
Inductive Event :=
| CallReject (reason : string)
| CallVerify (message address signature : string)
| CallAddBlock (block : Block.t)
| CallResolve (block : Block.t).

(** The state the executor of [submitStar] runs in: the ledger, the promise
    being settled, and the calls made so far. *)
Record Run := mkRun {
  ledger : Blockchain;
  promise : PromiseState Block.t;
  trace : list Event
}.

Definition Exec (A : Type) : Type := Run -> A * Run.

Definition ret {A} (x : A) : Exec A := fun r => (x, r).
Definition bind {A B} (m : Exec A) (k : A -> Exec B) : Exec B :=
  fun r => let '(x, r') := m r in k x r'.

Notation "'do' x <- m >>> k" := (bind m (fun x => k))
  (at level 10, x name, m at level 99, k at level 200).
Notation "m >>> k" := (bind m (fun _ => k))
  (at level 100, k at level 200, right associativity).

Definition reject (reason : string) : Exec unit := fun r =>
  (tt, mkRun (ledger r) (settle (promise r) (Rejected reason))
             (trace r ++ [CallReject reason])).

Definition resolve (block : Block.t) : Exec unit := fun r =>
  (tt, mkRun (ledger r) (settle (promise r) (Fulfilled block))
             (trace r ++ [CallResolve block])).

Definition when (c : bool) (m : Exec unit) : Exec unit :=
  if c then m else ret tt.

Section Ledger.

Context {Star : Type} `{!Externals Star}.

(** Modelled from the spec: the constructor of [Block] (block.js is not part
    of the sources at hand).  "Inputs: a Block with payload already set,
    structural fields unset": the body is the encoded payload, [hash] and
    [previousBlockHash] are unset; [height] and [time] hold placeholders that
    [_addBlock] overwrites before anything reads them. *)
Definition new_Block (data : Payload Star) : Block.t :=
  Block.mk None 0 (encode_body data) "" None.

(** The digest of a block's content: its serialized form with the [hash]
    field cleared. *)
Definition content_digest (b : Block.t) : string :=
  SHA256 (JSON_stringify (Block.set_hash None b)).

(** Modelled from the spec: [Block.validate] (block.js).  "recomputes the
    digest over the block's content with its own hash field cleared/excluded,
    compares to the stored hash; genesis block (height == 0) is always
    treated as valid regardless of hash match.  Returns a boolean". *)
Definition validate (b : Block.t) : PromiseState bool :=
  Fulfilled (if Block.height b =? 0 then true
             else bool_decide (Block.hash b = Some (content_digest b))).

(** Modelled from the spec: [Block.getBData] (block.js), the spec's
    [decodePayload]: "decodes body back into the structured payload object;
    fails with DecodeError if body is not validly encoded".  The promise it
    returns is settled when it is returned. *)
Definition getBData (b : Block.t) : PromiseState (Payload Star) :=
  match decode_body (Block.body b) with
  | Some data => Fulfilled data
  | None => Rejected "DecodeError"
  end.

(** [getChainHeight()].  Its promise is fulfilled with the cached height in
    every case; it is modelled by that value. *)
Definition getChainHeight (self : Blockchain) : Z := height self.

(** The reaction of [block.validate().catch(error => errorLog.push(error))]:
    the handler runs only on a rejected promise. *)
Definition validate_catch (p : PromiseState bool) (s : ValidateLocals)
  : ValidateLocals :=
  match p with
  | Rejected error => push_error error s
  | _ => s
  end.

(** The rest of the [forEach] callback of [validateChain] after its [await].
    The awaited value is the boolean of [validate], or the new length of
    [errorLog] (at least 1, truthy) returned by the catch handler. *)
Definition validate_continuation (block : Block.t) (p : PromiseState bool)
    (s : ValidateLocals) : ValidateLocals :=
  match p with
  | Pending => s
  | _ =>
      let truthy := match p with Fulfilled v => v | _ => true end in
      let s :=
        if negb truthy
        then push_error ("block did not validate, for block.hash="
                         +:+ hash_text (Block.hash block)) s
        else s in
      let s :=
        if (Block.height block >? 0)
           && negb (bool_decide (previousHash s = Block.previousBlockHash block))
        then push_error ("previousHash does not match, for block.hash="
                         +:+ hash_text (Block.hash block)) s
        else s in
      mkValidateLocals (errorLog s) (Block.hash block)
  end.

(** [validateChain()].  Each [forEach] callback is an async function: it
    calls [block.validate()], registers the catch handler and stops at its
    [await]; [resolve(errorLog)] follows at once, on the still empty array.
    The catch reactions of all blocks are queued first; each of them wakes
    the continuation of its callback, so the continuations run after them,
    in chain order, and after the continuation of a caller that awaits the
    returned promise. *)
Definition validateChain (self : Blockchain)
  : Async ValidateLocals (list string) :=
  let started := map (fun block => (block, validate block)) (chain self) in
  mkAsync
    (mkValidateLocals [] None)
    (Fulfilled errorLog)
    (map (fun bp => validate_catch bp.2) started
     ++ map (fun bp => validate_continuation bp.1 bp.2) started)
    (length started).

(** [_addBlock(block)] at clock reading [now], for a [block] object that is
    not yet in the chain, as the constructor hands it over at both call sites
    ([_addBlock_same_object] below is the call on an object the chain already
    holds).  [getChainHeight] never rejects, so the catch handler on it is
    never run.  When
    [chain[chainHeight]] is missing, reading its [hash] throws inside the
    async executor and the promise is never settled. *)
Definition _addBlock (self : Blockchain) (block : Block.t) (now : N)
  : PromiseState Block.t * Blockchain :=
  let block := Block.set_time (Js.seconds_text now) block in
  let chainHeight := getChainHeight self in
  let block := Block.set_height (chainHeight + 1) block in
  let linked :=
    if chainHeight >=? 0 then
      match chain self !! Z.to_nat chainHeight with
      | Some previous =>
          Some (Block.set_previousBlockHash (Block.hash previous) block)
      | None => None
      end
    else Some block in
  match linked with
  | Some block =>
      let block :=
        Block.set_hash (Some (SHA256 (JSON_stringify block))) block in
      let self' := mkBlockchain (chain self ++ [block]) (height self + 1) in
      let _ := validateChain self' in
      (Fulfilled block, self')
  | None => (Pending, self)
  end.

(** [initializeChain()] *)
Definition initializeChain (self : Blockchain) (now : N) : Blockchain :=
  if bool_decide (height self = -1)
  then (_addBlock self (new_Block (GenesisData "Genesis Block")) now).2
  else self.

(** [new Blockchain()] *)
Definition Blockchain_new (now : N) : Blockchain :=
  initializeChain (mkBlockchain [] (-1)) now.

(** [requestMessageOwnershipVerification(address)] *)
Definition requestMessageOwnershipVerification (self : Blockchain)
    (address : string) (now : N) : PromiseState string * Blockchain :=
  let message :=
    address +:+ ":" +:+ Js.seconds_text now +:+ ":starRegistry" in
  (Fulfilled message, self).

(** [parseInt(message.split(':')[1])] *)
Definition embeddedTimestamp (message : string) : Js.number :=
  Js.parseInt (Js.split ":" message !! 1%nat).

(** [parseInt(new Date().getTime().toString().slice(0, -3))] *)
Definition currentTime (now : N) : Js.number :=
  Js.parseInt (Some (Js.seconds_text now)).

Definition timeDifference (now : N) (message : string) : Js.number :=
  Js.sub (currentTime now) (embeddedTimestamp message).

Definition call_verify (message address signature : string)
  : Exec VerifyResult := fun r =>
  (bitcoinMessage_verify message address signature,
   mkRun (ledger r) (promise r)
         (trace r ++ [CallVerify message address signature])).

Definition call_addBlock (block : Block.t) (now : N)
  : Exec (PromiseState Block.t) := fun r =>
  let '(p, self') := _addBlock (ledger r) block now in
  (p, mkRun self' (promise r) (trace r ++ [CallAddBlock block])).

(** The executor of [submitStar]: [now] is the clock when the elapsed time
    is computed, [now_add] when [_addBlock] stamps the block.  After
    [reject(error)] in the catch handler of [_addBlock] the promise is
    settled, so the [resolve(undefined)] that follows it is left out. *)
Definition submitStar_executor (address message signature : string)
    (star : Star) (now now_add : N) : Exec unit :=
  let time := embeddedTimestamp message in
  let currentTime := currentTime now in
  let timeDifference := Js.sub currentTime time in
  when (Js.gt timeDifference (Js.Num (5 * 60))) (reject expired_error) >>>
  do verified <- call_verify message address signature >>>
  match verified with
  | VTrue => ret tt
  | VFalse => reject signature_error
  | VThrow error => reject (verification_error error)
  end >>>
  let newBlock := new_Block (StarData address message signature star) in
  do added <- call_addBlock newBlock now_add >>>
  match added with
  | Fulfilled block => resolve block
  | Rejected error => reject error
  | Pending => ret tt
  end.

(** [submitStar(address, message, signature, star)] on the ledger [self]. *)
Definition submitStar (self : Blockchain) (address message signature : string)
    (star : Star) (now now_add : N) : Run :=
  (submitStar_executor address message signature star now now_add
     (mkRun self Pending [])).2.

(** [getBlockByHash(hash)]; [None] is [undefined]. *)
Definition getBlockByHash (self : Blockchain) (hash : string)
  : PromiseState (option Block.t) :=
  Fulfilled (find (fun block => bool_decide (Block.hash block = Some hash))
                  (chain self)).

(** [getBlockByHeight(height)]; [None] is [null].  The payload of a block
    that is found is decoded for the log only, a failure to decode is caught. *)
Definition getBlockByHeight (self : Blockchain) (height : Z)
  : PromiseState (option Block.t) :=
  match filter (fun p => Block.height p = height) (chain self) with
  | block :: _ =>
      let _ := getBData block in
      Fulfilled (Some block)
  | [] => Fulfilled None
  end.

(** The [then] callback of [getStarsByWalletAddress]. *)
Definition collect_star (address : string) (blockData : Payload Star)
    (stars : list Star) : list Star :=
  match blockData with
  | StarData blockAddress _ _ star =>
      if bool_decide (address = blockAddress) then stars ++ [star] else stars
  | GenesisData _ => stars
  end.

(** [getStarsByWalletAddress(address)].  [forEach] calls [getBData] on each
    block of [chain.slice(1)] and registers the [then] callback; the promise
    of [getBData] is settled already, so the callback is queued at once (on a
    rejected one the reaction only rejects the promise [then] returned, which
    nobody reads).  [resolve(stars)] follows on the still empty array. *)
Definition getStarsByWalletAddress (self : Blockchain) (address : string)
  : Async (list Star) (list Star) :=
  let reactions :=
    map (fun block =>
           match getBData block with
           | Fulfilled blockData => collect_star address blockData
           | _ => fun stars => stars
           end) (drop 1 (chain self)) in
  mkAsync [] (Fulfilled (fun stars => stars)) reactions (length reactions).

(** The ledgers the program can be in between two calls. *)
Inductive reachable : Blockchain -> Prop :=
| reachable_new now : reachable (Blockchain_new now)
| reachable_addBlock self data now :
    reachable self -> reachable (_addBlock self (new_Block data) now).2
| reachable_submitStar self address message signature star now now_add :
    reachable self ->
    reachable (ledger (submitStar self address message signature star
                                  now now_add)).

End Ledger.

(** ** A concrete instance, to run the ledger on examples

    Stars are strings.  The digest wraps the serialized block, the
    serialization lists the fields, the signature "sig-of-" followed by the
    address verifies for any message, a signature starting with "!" makes the
    verifier throw, and payloads are encoded field by field. *)

Module Sample.

Definition stringify (b : Block.t) : string :=
  "{hash:" +:+ hash_text (Block.hash b)
  +:+ ",height:" +:+ pretty (Block.height b)
  +:+ ",body:" +:+ Block.body b
  +:+ ",time:" +:+ Block.time b
  +:+ ",previousBlockHash:" +:+ hash_text (Block.previousBlockHash b) +:+ "}".

Definition verify (message address signature : string) : VerifyResult :=
  match signature with
  | String "!" _ => VThrow "Error: Invalid signature length"
  | _ => if bool_decide (signature = "sig-of-" +:+ address)
         then VTrue else VFalse
  end.

Definition encode (p : Payload string) : string :=
  match p with
  | GenesisData data => "G|" +:+ data
  | StarData address message signature star =>
      "S|" +:+ address +:+ "|" +:+ message +:+ "|" +:+ signature
      +:+ "|" +:+ star
  end.

Definition decode (body : string) : option (Payload string) :=
  match Js.split "|" body with
  | ["G"; data] => Some (GenesisData data)
  | ["S"; address; message; signature; star] =>
      Some (StarData address message signature star)
  | _ => None
  end.

#[global] Instance externals : Externals string := {|
  SHA256 := fun s => "sha256(" +:+ s +:+ ")";
  JSON_stringify := stringify;
  bitcoinMessage_verify := verify;
  encode_body := encode;
  decode_body := decode
|}.

(** A ledger started at 1700000000 s. *)
Definition fresh : Blockchain := Blockchain_new 1700000000123.

(** A ledger with two stars of "addrA" and one of "addrB". *)
Definition three_stars : Blockchain :=
  let s1 := ledger (submitStar fresh "addrA" "addrA:1700000000:starRegistry"
                      "sig-of-addrA" "vega" 1700000010000 1700000010001) in
  let s2 := ledger (submitStar s1 "addrB" "addrB:1700000020:starRegistry"
                      "sig-of-addrB" "rigel" 1700000030000 1700000030001) in
  ledger (submitStar s2 "addrA" "addrA:1700000040:starRegistry"
            "sig-of-addrA" "deneb" 1700000050000 1700000050001).

(** [three_stars] after somebody rewrote the parent link of its third block. *)
Definition tampered : Blockchain :=
  mkBlockchain
    (map (fun b => if bool_decide (Block.height b = 2)
                   then Block.set_previousBlockHash (Some "bogus") b else b)
         (chain three_stars))
    (height three_stars).

End Sample.

(** ** Notions the statements and their proofs use *)

(** The cached height is the length of the chain minus one. *)
Definition consistent (self : Blockchain) : Prop :=
  height self = Z.of_nat (length (chain self)) - 1.

(** The message has the three colon-delimited fields
    [{address}:{timestamp}:starRegistry]. *)
Definition three_part_structure (address message : string) : bool :=
  match Js.split ":" message with
  | [field0; _; field2] =>
      bool_decide (field0 = address) && bool_decide (field2 = "starRegistry")
  | _ => false
  end.

(** The stars of [address] in a chain, in the words of the specification:
    decode every block but the first, keep the payloads whose address is the
    one asked for, take their stars. *)
Definition stars_of_address {Star} `{!Externals Star} (address : string)
    (blocks : list Block.t) : list Star :=
  let decoded := omap (fun b => decode_body (Block.body b)) (drop 1 blocks) in
  omap payload_star
       (filter (fun data => payload_address data = Some address) decoded).

(** A scan of [validateChain] that starts with [previousHash = previous]
    finds nothing to report in [blocks]. *)
Fixpoint linked {Star} `{!Externals Star} (previous : option string)
    (blocks : list Block.t) : Prop :=
  match blocks with
  | [] => True
  | b :: rest =>
      validate b = Fulfilled true
      /\ (0 < Block.height b -> Block.previousBlockHash b = previous)
      /\ linked (Block.hash b) rest
  end.

(** The hash a scan ends with. *)
Definition last_hash (previous : option string) (blocks : list Block.t)
  : option string :=
  match last blocks with
  | Some b => Block.hash b
  | None => previous
  end.

(** Chain integrity: every block sits at the index that is its height, its
    hash is the digest of its content, the first block has no parent and every
    other block names the hash of the block before it. *)
Definition integrity {Star} `{!Externals Star} (blocks : list Block.t) : Prop :=
  forall (h : nat) (b : Block.t),
    blocks !! h = Some b ->
    Block.height b = Z.of_nat h
    /\ Block.hash b = Some (content_digest b)
    /\ match h with
       | O => Block.previousBlockHash b = None
       | S h' => exists p, blocks !! h' = Some p
                           /\ Block.previousBlockHash b = Block.hash p
       end.

(** The callbacks [validateChain] starts, one per block. *)
Definition started_on {Star} `{!Externals Star} (blocks : list Block.t)
  : list (Block.t * PromiseState bool) :=
  map (fun block => (block, validate block)) blocks.

(** The block [_addBlock] builds on a consistent ledger. *)
Definition sealed {Star} `{!Externals Star} (self : Blockchain)
    (block : Block.t) (now : N) : Block.t :=
  let block := Block.set_time (Js.seconds_text now) block in
  let block := Block.set_height (height self + 1) block in
  let block :=
    Block.set_previousBlockHash
      (last_hash (Block.previousBlockHash block) (chain self)) block in
  Block.set_hash (Some (SHA256 (JSON_stringify block))) block.

(** Every character of the string is a decimal digit. *)
Fixpoint all_decimal (s : string) : Prop :=
  match s with
  | EmptyString => True
  | String c rest => is_Some (Js.digit 10 c) /\ all_decimal rest
  end.

(** ** Further notions: the scan in sequence, overlapping appends *)

(** What one block adds to the error list of [validateChain] when the scan
    arrives at it with [previousHash = previous]. *)
Definition block_errors {Star} `{!Externals Star} (previous : option string)
    (b : Block.t) : list string :=
  (match validate b with
   | Fulfilled false =>
       ["block did not validate, for block.hash=" +:+ hash_text (Block.hash b)]
   | _ => []
   end
   ++ if (Block.height b >? 0)
         && negb (bool_decide (previous = Block.previousBlockHash b))
      then ["previousHash does not match, for block.hash="
            +:+ hash_text (Block.hash b)]
      else [])%list.

(** The error list of a scan that visits the blocks one after the other,
    front to back. *)
Fixpoint scan_errors {Star} `{!Externals Star} (previous : option string)
    (blocks : list Block.t) : list string :=
  match blocks with
  | [] => []
  | b :: rest => block_errors previous b ++ scan_errors (Block.hash b) rest
  end.

(** [_addBlock] up to its first [await]: the block is stamped and
    [getChainHeight()] is called, which reads the cached height at once. *)
Definition _addBlock_start (self : Blockchain) (block : Block.t) (now : N)
  : Block.t * Z :=
  (Block.set_time (Js.seconds_text now) block, getChainHeight self).

(** [_addBlock] from the point where the awaited height arrives, on the
    ledger as it is by then. *)
Definition _addBlock_resume {Star} `{!Externals Star} (self : Blockchain)
    (started : Block.t * Z) : PromiseState Block.t * Blockchain :=
  let '(block, chainHeight) := started in
  let block := Block.set_height (chainHeight + 1) block in
  let linked :=
    if chainHeight >=? 0 then
      match chain self !! Z.to_nat chainHeight with
      | Some previous =>
          Some (Block.set_previousBlockHash (Block.hash previous) block)
      | None => None
      end
    else Some block in
  match linked with
  | Some block =>
      let block :=
        Block.set_hash (Some (SHA256 (JSON_stringify block))) block in
      let self' := mkBlockchain (chain self ++ [block]) (height self + 1) in
      let _ := validateChain self' in
      (Fulfilled block, self')
  | None => (Pending, self)
  end.

(** Two calls of [_addBlock] made in one turn of the event loop, as by a
    [submitStar] that follows [new Blockchain()] at once or by two
    [submitStar] that are not awaited one after the other: both run to their
    [await] before either continues, then they continue in the order of the
    calls. *)
Definition overlapping_appends {Star} `{!Externals Star} (self : Blockchain)
    (block1 : Block.t) (now1 : N) (block2 : Block.t) (now2 : N)
  : PromiseState Block.t * PromiseState Block.t * Blockchain :=
  let started1 := _addBlock_start self block1 now1 in
  let started2 := _addBlock_start self block2 now2 in
  let '(p1, self1) := _addBlock_resume self started1 in
  let '(p2, self2) := _addBlock_resume self1 started2 in
  (p1, p2, self2).


(** The string has no colon. *)
Fixpoint colon_free (s : string) : Prop :=
  match s with
  | EmptyString => True
  | String c rest => c <> ":"%char /\ colon_free rest
  end.

(** ** Proofs: the clock text and [parseInt] *)

Lemma string_app_nil (b : string) : "" +:+ b = b.
Proof. reflexivity. Qed.

Lemma string_app_cons (x : ascii) (a b : string) :
  String x a +:+ b = String x (a +:+ b).
Proof. reflexivity. Qed.

Lemma string_app_assoc (a b c : string) : (a +:+ b) +:+ c = a +:+ (b +:+ c).
Proof.
  induction a as [|x a IH]; [done|]. by rewrite !string_app_cons, IH.
Qed.

Lemma string_length_app (a b : string) :
  String.length (a +:+ b) = (String.length a + String.length b)%nat.
Proof.
  induction a as [|x a IH]; [done|]. rewrite string_app_cons. simpl.
  by rewrite IH.
Qed.

Lemma substring_prefix (a b : string) :
  substring 0 (String.length a) (a +:+ b) = a.
Proof.
  induction a as [|x a IH].
  - rewrite string_app_nil. by destruct b.
  - rewrite string_app_cons. simpl. by rewrite IH.
Qed.

Lemma pretty_N_go_app (x : N) (s : string) :
  pretty_N_go x s = pretty_N_go x "" +:+ s.
Proof.
  revert s. induction (N.lt_wf_0 x) as [x _ IH]; intros s.
  destruct (decide (x = 0%N)) as [->|Hx].
  - by rewrite !pretty_N_go_0.
  - rewrite !(pretty_N_go_step x) by lia.
    assert (x `div` 10 < x)%N as Hlt by (apply N.div_lt; lia).
    rewrite (IH _ Hlt (String _ s)), (IH _ Hlt (String _ "")).
    by rewrite string_app_assoc.
Qed.

Lemma pretty_N_go_snoc (x : N) :
  (0 < x)%N ->
  pretty_N_go x ""
  = pretty_N_go (x `div` 10) "" +:+ String (pretty_N_char (x `mod` 10)) "".
Proof. intros Hx. by rewrite pretty_N_go_step, pretty_N_go_app. Qed.

Lemma pretty_N_positive (x : N) : (0 < x)%N -> pretty x = pretty_N_go x "".
Proof. intros Hx. unfold pretty, pretty_N. case_decide; [lia|done]. Qed.

(** Cutting the last three digits of the milliseconds leaves the seconds. *)
Lemma seconds_text_seconds (ms : N) :
  (1000 <= ms)%N -> Js.seconds_text ms = pretty (ms `div` 1000)%N.
Proof.
  intros Hms. unfold Js.seconds_text, Js.slice_0_neg3.
  set (d1 := (ms `div` 10)%N). set (d2 := (d1 `div` 10)%N).
  assert ((d2 `div` 10)%N = (ms `div` 1000)%N) as Hd3.
  { unfold d2, d1. by rewrite !N.Div0.div_div. }
  assert (0 < ms `div` 1000)%N by (apply N.div_str_pos; lia).
  assert (0 < d2)%N.
  { unfold d2, d1. rewrite N.Div0.div_div. apply N.div_str_pos. lia. }
  assert (0 < d1)%N by (apply N.div_str_pos; lia).
  rewrite !pretty_N_positive by lia.
  rewrite (pretty_N_go_snoc ms) by lia. fold d1.
  rewrite (pretty_N_go_snoc d1) by lia. fold d2.
  rewrite (pretty_N_go_snoc d2) by lia. rewrite Hd3.
  rewrite !string_app_assoc, !string_app_cons, !string_app_nil.
  rewrite string_length_app. simpl (String.length (String _ _)).
  replace (String.length (pretty_N_go (ms `div` 1000) "") + 3 - 3)%nat
    with (String.length (pretty_N_go (ms `div` 1000) "")) by lia.
  apply substring_prefix.
Qed.

Lemma digit_pretty_N_char (x : N) :
  (x < 10)%N -> Js.digit 10 (pretty_N_char x) = Some (Z.of_N x).
Proof.
  intros Hx.
  assert (x = 0 \/ x = 1 \/ x = 2 \/ x = 3 \/ x = 4 \/ x = 5 \/ x = 6
          \/ x = 7 \/ x = 8 \/ x = 9)%N as Hcases by lia.
  destruct_or!; subst x; reflexivity.
Qed.

Lemma all_decimal_snoc (a : string) (c : ascii) :
  all_decimal a -> is_Some (Js.digit 10 c) ->
  all_decimal (a +:+ String c "").
Proof.
  induction a as [|x a IH].
  - rewrite string_app_nil. simpl. done.
  - rewrite string_app_cons. simpl.
    intros [Hx Ha] Hc. split; [done|]. by apply IH.
Qed.

Lemma digits_snoc (a : string) (c : ascii) (d : Z) (acc : option Z) :
  all_decimal a -> Js.digit 10 c = Some d ->
  Js.digits 10 acc (a +:+ String c "")
  = Some (default 0 (Js.digits 10 acc a) * 10 + d).
Proof.
  revert acc. induction a as [|x a IH]; intros acc.
  - rewrite string_app_nil. simpl. intros _ ->. done.
  - rewrite string_app_cons. simpl.
    intros [[dx Hx] Ha] Hc. rewrite Hx. by apply IH.
Qed.

Lemma pretty_N_go_decimal (x : N) :
  all_decimal (pretty_N_go x "")
  /\ Js.digits 10 None (pretty_N_go x "")
     = if decide (x = 0%N) then None else Some (Z.of_N x).
Proof.
  induction (N.lt_wf_0 x) as [x _ IH].
  destruct (decide (x = 0%N)) as [->|Hx]; [done|].
  rewrite pretty_N_go_snoc by lia.
  destruct (IH (x `div` 10)%N) as [Hall Hval]; [apply N.div_lt; lia|].
  assert (x `mod` 10 < 10)%N as Hmod by (apply N.mod_lt; lia).
  pose proof (digit_pretty_N_char _ Hmod) as Hdigit.
  split; [by apply all_decimal_snoc|].
  rewrite (digits_snoc _ _ _ _ Hall Hdigit), Hval. f_equal.
  pose proof (N.div_mod x 10 ltac:(lia)) as Hdm.
  destruct (decide (x `div` 10 = 0)%N) as [H0|H0]; simpl; lia.
Qed.

Lemma parseInt_string_decimal (s : string) :
  all_decimal s -> s <> "" ->
  Js.parseInt_string s
  = match Js.digits 10 None s with
    | Some v => Js.Num v
    | None => Js.NaN
    end.
Proof.
  destruct s as [|c rest]; [done|]. intros [[d Hd] Hrest] _.
  destruct c as [[] [] [] [] [] [] [] []];
    try (vm_compute in Hd; discriminate); clear Hd;
    try (unfold Js.parseInt_string; simpl;
         destruct (Js.digits _ _ _) as [v|]; [by destruct v|done]).
  destruct rest as [|c2 rest2]; [reflexivity|].
  destruct Hrest as [[d2 Hd2] _].
  destruct c2 as [[] [] [] [] [] [] [] []];
    try (vm_compute in Hd2; discriminate); clear Hd2;
    unfold Js.parseInt_string; simpl;
    (destruct (Js.digits _ _ _) as [v|]; [by destruct v|done]).
Qed.

(** [parseInt] reads back what [toString] printed. *)
Lemma parseInt_pretty (n : N) :
  Js.parseInt_string (pretty n) = Js.Num (Z.of_N n).
Proof.
  destruct (decide (n = 0%N)) as [->|Hn]; [reflexivity|].
  rewrite pretty_N_positive by lia.
  destruct (pretty_N_go_decimal n) as [Hall Hval].
  rewrite parseInt_string_decimal, Hval; [by case_decide|done|].
  intros Hempty. rewrite Hempty in Hval. simpl in Hval. by case_decide.
Qed.

(** ** Proofs: promises and the executor of [submitStar] *)

(** *** The fields of a message and white space before a number *)

Lemma split_colon_free (a rest : string) :
  colon_free a ->
  Js.split ":" (a +:+ String ":" rest) = a :: Js.split ":" rest.
Proof.
  induction a as [|c a IH].
  - intros _. rewrite string_app_nil. reflexivity.
  - intros [Hc Ha]. rewrite string_app_cons. simpl.
    destruct (Ascii.eqb_spec c ":") as [|_]; [done|].
    by rewrite IH.
Qed.

Lemma split_no_colon (a : string) : colon_free a -> Js.split ":" a = [a].
Proof.
  induction a as [|c a IH]; [done|]. intros [Hc Ha]. simpl.
  destruct (Ascii.eqb_spec c ":") as [|_]; [done|]. by rewrite IH.
Qed.

(** A message without a colon has no second field: [split(':')[1]] is
    [undefined]. *)
Lemma no_colon_no_second_field (message : string) :
  colon_free message -> Js.split ":" message !! 1%nat = None.
Proof. intros Hfree. by rewrite split_no_colon. Qed.

(** [parseInt] skips a no-break space (bytes 194, 160) as it skips a space. *)
Lemma parseInt_skips_no_break_space (n : N) :
  Js.parseInt_string
    (String (ascii_of_nat 194) (String (ascii_of_nat 160) (pretty n)))
  = Js.parseInt_string (pretty n).
Proof. reflexivity. Qed.

Lemma settle_pending_r {A} (p : PromiseState A) : settle p Pending = p.
Proof. by destruct p. Qed.

Lemma settle_rejected_l {A} (reason : string) (o : PromiseState A) :
  settle (Rejected reason) o = Rejected reason.
Proof. done. Qed.

(** Unfolds the executor of [submitStar] down to its three decisions. *)
Ltac run_executor :=
  unfold submitStar, submitStar_executor, bind, when, call_verify,
    call_addBlock, reject, resolve, ret.

Section Properties.

Context {Star : Type} `{!Externals Star}.

Implicit Types (self : Blockchain) (block : Block.t) (now : N).

Local Arguments validate : simpl never.

Lemma last_lookup_consistent self :
  consistent self -> 0 <= height self ->
  chain self !! Z.to_nat (height self) = last (chain self).
Proof.
  unfold consistent. intros Hc Hh. rewrite last_lookup. f_equal. lia.
Qed.

Lemma consistent_height_bounds self :
  consistent self -> -1 <= height self.
Proof. unfold consistent. lia. Qed.

Lemma consistent_empty self :
  consistent self -> height self < 0 -> chain self = [].
Proof.
  unfold consistent. destruct (chain self); [done|]. simpl. lia.
Qed.

Lemma addBlock_consistent self block now :
  consistent self ->
  _addBlock self block now =
    (Fulfilled (sealed self block now),
     mkBlockchain (chain self ++ [sealed self block now]) (height self + 1)).
Proof.
  intros Hc. unfold _addBlock, sealed, getChainHeight.
  destruct (height self >=? 0) eqn:Hh.
  - apply Z.geb_le in Hh. rewrite last_lookup_consistent by done.
    unfold last_hash. destruct (last (chain self)) as [previous|] eqn:Hl; [done|].
    apply last_None in Hl. unfold consistent in Hc. rewrite Hl in Hc.
    simpl in Hc. lia.
  - assert (height self < 0) as Hneg.
    { destruct (Z.geb_spec (height self) 0); [done | lia]. }
    rewrite (consistent_empty self Hc Hneg). done.
Qed.

Lemma addBlock_keeps_consistent self block now :
  consistent self -> consistent (_addBlock self block now).2.
Proof.
  intros Hc. rewrite addBlock_consistent by done. unfold consistent in *.
  simpl. rewrite length_app. simpl. lia.
Qed.

Lemma submitStar_ledger self address message signature star now now_add :
  ledger (submitStar self address message signature star now now_add)
  = (_addBlock self (new_Block (StarData address message signature star))
               now_add).2.
Proof.
  run_executor.
  destruct (Js.gt _ _); simpl;
    destruct (bitcoinMessage_verify _ _ _); simpl;
    destruct (_addBlock _ _ _) as [[] ?]; reflexivity.
Qed.

(** The promise of [submitStar]: the first of the three steps that settles
    it decides. *)
Lemma submitStar_promise self address message signature star now now_add :
  promise (submitStar self address message signature star now now_add)
  = settle
      (settle
         (if Js.gt (timeDifference now message) (Js.Num 300)
          then Rejected expired_error else Pending)
         (match bitcoinMessage_verify message address signature with
          | VTrue => Pending
          | VFalse => Rejected signature_error
          | VThrow error => Rejected (verification_error error)
          end))
      (_addBlock self (new_Block (StarData address message signature star))
                 now_add).1.
Proof.
  run_executor. unfold timeDifference.
  destruct (Js.gt _ _); simpl;
    destruct (bitcoinMessage_verify _ _ _); simpl;
    destruct (_addBlock _ _ _) as [[] ?]; reflexivity.
Qed.

Lemma submitStar_trace_expired self address message signature star now now_add :
  Js.gt (timeDifference now message) (Js.Num 300) = true ->
  exists rest,
    trace (submitStar self address message signature star now now_add)
    = CallReject expired_error :: CallVerify message address signature :: rest.
Proof.
  intros Hgt. run_executor.
  unfold timeDifference in Hgt. change (5 * 60) with 300. rewrite Hgt. simpl.
  destruct (bitcoinMessage_verify _ _ _); simpl;
    destruct (_addBlock _ _ _) as [[] ?]; simpl; eauto.
Qed.

Lemma Blockchain_new_unfold now :
  Blockchain_new now
  = (_addBlock (mkBlockchain [] (-1)) (new_Block (GenesisData "Genesis Block"))
               now).2.
Proof. reflexivity. Qed.

Lemma consistent_new now : consistent (Blockchain_new now).
Proof.
  rewrite Blockchain_new_unfold. apply addBlock_keeps_consistent. done.
Qed.

Lemma reachable_consistent self : reachable self -> consistent self.
Proof.
  induction 1 as [now|self data now _ IH|self a m sg st now now_add _ IH].
  - apply consistent_new.
  - by apply addBlock_keeps_consistent.
  - rewrite submitStar_ledger. by apply addBlock_keeps_consistent.
Qed.

Lemma reachable_by_appends (P : Blockchain -> Prop) :
  (forall now, P (Blockchain_new now)) ->
  (forall self data now,
      reachable self -> P self ->
      P (mkBlockchain (chain self ++ [sealed self (new_Block data) now])
                      (height self + 1))) ->
  forall self, reachable self -> P self.
Proof.
  intros Hnew Hadd self Hr.
  induction Hr as [now|self data now Hr IH|self a m sg st now now_add Hr IH].
  - apply Hnew.
  - rewrite addBlock_consistent by by apply reachable_consistent.
    by apply Hadd.
  - rewrite submitStar_ledger, addBlock_consistent
      by by apply reachable_consistent.
    by apply Hadd.
Qed.

Lemma Blockchain_new_chain now :
  Blockchain_new now
  = mkBlockchain
      [sealed (mkBlockchain [] (-1)) (new_Block (GenesisData "Genesis Block"))
              now] 0.
Proof. reflexivity. Qed.

(** *** The sealed block *)

Lemma set_hash_cleared block v :
  Block.hash block = None ->
  Block.set_hash None (Block.set_hash v block) = block.
Proof. destruct block. simpl. by intros ->. Qed.

Lemma sealed_hash self block now :
  Block.hash block = None ->
  Block.hash (sealed self block now)
  = Some (content_digest (sealed self block now)).
Proof.
  intros Hnone. unfold sealed, content_digest.
  by rewrite set_hash_cleared.
Qed.

Lemma sealed_height self block now :
  Block.height (sealed self block now) = height self + 1.
Proof. reflexivity. Qed.

Lemma sealed_time self block now :
  Block.time (sealed self block now) = Js.seconds_text now.
Proof. reflexivity. Qed.

Lemma sealed_body self block now :
  Block.body (sealed self block now) = Block.body block.
Proof. reflexivity. Qed.

Lemma sealed_previousBlockHash self block now :
  Block.previousBlockHash (sealed self block now)
  = last_hash (Block.previousBlockHash block) (chain self).
Proof. reflexivity. Qed.

Lemma sealed_validates self block now :
  Block.hash block = None ->
  validate (sealed self block now) = Fulfilled true.
Proof.
  intros Hnone. unfold validate.
  rewrite (sealed_hash self block now Hnone).
  rewrite bool_decide_eq_true_2 by done. by destruct (_ =? _).
Qed.

(** *** Integrity is kept by every append *)

Lemma integrity_nil : integrity [].
Proof. intros h b Hl. by rewrite lookup_nil in Hl. Qed.

Lemma integrity_snoc self data now :
  consistent self -> integrity (chain self) ->
  integrity (chain self ++ [sealed self (new_Block data) now]).
Proof.
  intros Hc Hi h b Hl.
  apply lookup_snoc_Some in Hl as [[Hlt Hl]|[Hh <-]].
  - destruct (Hi h b Hl) as (Hheight & Hhash & Hprev).
    split_and!; [done..|].
    destruct h as [|h']; [done|].
    destruct Hprev as (p & Hp & Hpp). exists p. split; [|done].
    by apply lookup_app_l_Some.
  - rewrite sealed_height, sealed_hash, sealed_previousBlockHash by done.
    unfold consistent in Hc. split_and!; [lia|done|].
    unfold last_hash. rewrite last_lookup, <-Hh.
    destruct h as [|h']; simpl.
    + symmetry in Hh. apply nil_length_inv in Hh. by rewrite Hh.
    + assert (is_Some (chain self !! h')) as [p Hp].
      { apply lookup_lt_is_Some. lia. }
      rewrite Hp. exists p. split; [|done]. by apply lookup_app_l_Some.
Qed.

Lemma reachable_integrity self : reachable self -> integrity (chain self).
Proof.
  revert self. apply reachable_by_appends.
  - intros now. rewrite Blockchain_new_chain. simpl.
    apply (integrity_snoc (mkBlockchain [] (-1))); [done|apply integrity_nil].
  - intros self data now Hr Hi. simpl.
    apply integrity_snoc; [by apply reachable_consistent|done].
Qed.

(** *** The scan of [validateChain] *)

Lemma last_hash_cons previous b rest :
  last_hash previous (b :: rest) = last_hash (Block.hash b) rest.
Proof.
  unfold last_hash. destruct rest as [|b' rest]; [done|].
  rewrite last_cons_cons.
  destruct (last (b' :: rest)) eqn:Hl; [done|]. by apply last_None in Hl.
Qed.

Lemma linked_snoc previous blocks b :
  linked previous blocks ->
  validate b = Fulfilled true ->
  (0 < Block.height b -> Block.previousBlockHash b = last_hash previous blocks) ->
  linked previous (blocks ++ [b]).
Proof.
  revert previous. induction blocks as [|x blocks IH]; intros previous.
  - simpl. intros _ Hv Hp. done.
  - simpl. intros (Hx & Hxp & Hrest) Hv Hp. split_and!; [done..|].
    apply IH; [done..|]. by rewrite <-(last_hash_cons previous).
Qed.

Lemma linked_take previous blocks n :
  linked previous blocks -> linked previous (take n blocks).
Proof.
  revert previous n. induction blocks as [|x blocks IH]; intros previous n.
  - by rewrite take_nil.
  - destruct n as [|n]; [done|]. simpl. intros (Hx & Hxp & Hrest).
    split_and!; [done..|]. by apply IH.
Qed.

Lemma reachable_linked self : reachable self -> linked None (chain self).
Proof.
  revert self. apply reachable_by_appends.
  - intros now. rewrite Blockchain_new_chain. simpl. split_and!; done.
  - intros self data now Hr Hl. simpl.
    apply linked_snoc; [done|by apply sealed_validates|].
    intros _. by rewrite sealed_previousBlockHash.
Qed.

Lemma catch_reactions_idle (blocks : list Block.t) (s : ValidateLocals) n :
  run_jobs (take n (map (fun bp => validate_catch bp.2) (started_on blocks))) s
  = s.
Proof.
  revert n s. induction blocks as [|b blocks IH]; intros n s.
  - by destruct n.
  - destruct n as [|n]; [done|]. simpl. apply IH.
Qed.

Lemma run_jobs_cons {S} (job : S -> S) (jobs : list (S -> S)) (s : S) :
  run_jobs (job :: jobs) s = run_jobs jobs (job s).
Proof. reflexivity. Qed.

Lemma started_on_cons b (blocks : list Block.t) :
  started_on (b :: blocks) = (b, validate b) :: started_on blocks.
Proof. reflexivity. Qed.

Lemma continuation_quiet b previous :
  validate b = Fulfilled true ->
  (0 < Block.height b -> Block.previousBlockHash b = previous) ->
  validate_continuation b (validate b) (mkValidateLocals [] previous)
  = mkValidateLocals [] (Block.hash b).
Proof.
  intros Hv Hp. rewrite Hv. unfold validate_continuation. simpl.
  destruct (Block.height b >? 0) eqn:Hh; [|done].
  apply Z.gtb_lt in Hh. rewrite (Hp Hh).
  by rewrite bool_decide_eq_true_2.
Qed.

Lemma continuations_linked previous (blocks : list Block.t) :
  linked previous blocks ->
  run_jobs (map (fun bp => validate_continuation bp.1 bp.2) (started_on blocks))
           (mkValidateLocals [] previous)
  = mkValidateLocals [] (last_hash previous blocks).
Proof.
  revert previous. induction blocks as [|b blocks IH]; intros previous.
  - done.
  - intros (Hv & Hp & Hrest).
    rewrite started_on_cons, map_cons, run_jobs_cons, last_hash_cons.
    cbn [fst snd]. rewrite continuation_quiet by done. by apply IH.
Qed.

Lemma run_jobs_app {S} (jobs1 jobs2 : list (S -> S)) (s : S) :
  run_jobs (jobs1 ++ jobs2) s = run_jobs jobs2 (run_jobs jobs1 s).
Proof. apply fold_left_app. Qed.

Lemma started_on_take (blocks : list Block.t) n :
  take n (started_on blocks) = started_on (take n blocks).
Proof. unfold started_on. apply firstn_map. Qed.

Lemma validateChain_unfold self :
  validateChain self
  = mkAsync (mkValidateLocals [] None) (Fulfilled errorLog)
      (map (fun bp => validate_catch bp.2) (started_on (chain self))
       ++ map (fun bp => validate_continuation bp.1 bp.2)
              (started_on (chain self)))
      (length (started_on (chain self))).
Proof. reflexivity. Qed.

Lemma validateChain_log_after self n :
  linked None (chain self) ->
  value_after n (validateChain self) = Some [].
Proof.
  intros Hl. rewrite validateChain_unfold. unfold value_after.
  cbn [result microtasks locals]. f_equal.
  rewrite take_app, run_jobs_app, catch_reactions_idle.
  rewrite firstn_map, started_on_take.
  rewrite continuations_linked; [done|]. by apply linked_take.
Qed.

(** *** The scan of [getStarsByWalletAddress] *)

Lemma star_reactions address (blocks : list Block.t) (stars : list Star) :
  run_jobs
    (map (fun block =>
            match getBData block with
            | Fulfilled blockData => collect_star address blockData
            | _ => fun stars => stars
            end) blocks) stars
  = (stars ++ omap payload_star
       (filter (fun data => payload_address data = Some address)
               (omap (fun b => decode_body (Block.body b)) blocks)))%list.
Proof.
  revert stars. induction blocks as [|b blocks IH]; intros stars.
  - simpl. by rewrite app_nil_r.
  - simpl. unfold getBData. rewrite IH.
    destruct (decode_body (Block.body b)) as [[data|a m sg star]|]; simpl.
    + by rewrite filter_cons_False by done.
    + case_bool_decide as Ha.
      * subst a. rewrite filter_cons_True by done. simpl.
        by rewrite <-app_assoc.
      * rewrite filter_cons_False; [done|]. simpl. congruence.
    + done.
Qed.

(** *** The search of [getBlockByHeight] *)

Lemma filter_none_matches (P : Block.t -> Prop) `{!forall b, Decision (P b)}
    (blocks : list Block.t) :
  (forall b, b ∈ blocks -> ~ P b) -> filter P blocks = [].
Proof.
  induction blocks as [|b blocks IH]; intros Hnone; [done|].
  rewrite filter_cons_False by (apply Hnone; left).
  apply IH. intros b' Hb'. apply Hnone. by right.
Qed.

Lemma integrity_heights_below (blocks : list Block.t) b :
  integrity blocks -> b ∈ blocks ->
  0 <= Block.height b < Z.of_nat (length blocks).
Proof.
  intros Hi [h Hl]%list_elem_of_lookup.
  destruct (Hi h b Hl) as (-> & _).
  apply lookup_lt_Some in Hl. lia.
Qed.

(** *** The clock *)

Lemma currentTime_seconds now :
  (1000 <= now)%N -> currentTime now = Js.Num (Z.of_N (now `div` 1000)).
Proof.
  intros Hnow. unfold currentTime, Js.parseInt.
  rewrite seconds_text_seconds by done. apply parseInt_pretty.
Qed.

(** The elapsed time of [submitStar] is the clock in whole seconds minus the
    number in the second field of the message. *)
Lemma timeDifference_seconds now message t :
  (1000 <= now)%N -> embeddedTimestamp message = Js.Num t ->
  timeDifference now message = Js.Num (Z.of_N (now `div` 1000) - t).
Proof.
  intros Hnow Ht. unfold timeDifference.
  by rewrite currentTime_seconds, Ht.
Qed.

Lemma timeDifference_expired now message d :
  timeDifference now message = Js.Num d -> 300 < d ->
  Js.gt (timeDifference now message) (Js.Num 300) = true.
Proof. intros -> Hd. simpl. by apply Z.gtb_lt. Qed.

Lemma timeDifference_NaN now message :
  embeddedTimestamp message = Js.NaN ->
  Js.gt (timeDifference now message) (Js.Num 300) = false.
Proof. intros Ht. unfold timeDifference. rewrite Ht. by destruct (currentTime now). Qed.

(** A challenge that is at most 300 seconds old and carries a signature
    the verifier accepts is fulfilled with the appended block. *)
Lemma submitStar_fresh_accepted self address message signature star now
    now_add elapsed :
  consistent self ->
  timeDifference now message = Js.Num elapsed -> elapsed <= 300 ->
  bitcoinMessage_verify message address signature = VTrue ->
  promise (submitStar self address message signature star now now_add)
  = Fulfilled (sealed self (new_Block (StarData address message signature star))
                      now_add).
Proof.
  intros Hc Hdiff Hfresh Hverified.
  rewrite submitStar_promise, addBlock_consistent, Hdiff, Hverified by done.
  simpl. destruct (Z.gtb_spec elapsed 300); [lia|done].
Qed.

(** *** The genesis block stays in front *)

Lemma reachable_genesis_body self :
  reachable self ->
  exists genesis,
    chain self !! 0%nat = Some genesis
    /\ Block.body genesis = encode_body (GenesisData "Genesis Block").
Proof.
  revert self. apply reachable_by_appends.
  - intros now. rewrite Blockchain_new_chain. simpl. eauto.
  - intros self data now _ (genesis & Hg & Hbody). simpl.
    exists genesis. split; [|done]. by apply lookup_app_l_Some.
Qed.

(** *** What the shared arrays hold, and when *)

(** The array of [getStarsByWalletAddress] is still empty when the promise
    is settled; the stars arrive with the callbacks queued before the
    continuation of the caller. *)
Lemma getStarsByWalletAddress_empty_when_settled self address :
  value_when_settled (getStarsByWalletAddress self address) = Some [].
Proof. reflexivity. Qed.


(** [getBlockByHeight] never rejects. *)
Lemma getBlockByHeight_fulfilled self h :
  exists found, getBlockByHeight self h = Fulfilled found.
Proof. unfold getBlockByHeight. destruct (filter _ _); eauto. Qed.

End Properties.

(** *** The sample ledger *)

(** The scan does report a chain that was tampered with: the third block of
    [Sample.tampered] fails both its own validation and the link check. *)
Lemma sample_tampered_reported :
  exists e1 e2,
    value_at_quiescence (validateChain Sample.tampered) = Some [e1; e2].
Proof. do 2 eexists. vm_compute. reflexivity. Qed.

Lemma sample_three_stars_reachable : reachable Sample.three_stars.
Proof.
  unfold Sample.three_stars. cbv zeta.
  do 3 apply reachable_submitStar. apply reachable_new.
Qed.

Lemma sample_fresh_consistent : consistent Sample.fresh.
Proof. apply consistent_new. Qed.

(** A timestamp that follows a no-break space (bytes 194, 160) is read like
    any other: 301 seconds later the submission is rejected as expired and
    the rejection is the first call of the executor. *)
Lemma sample_no_break_space_timestamp_expired :
  let message :=
    "addrA:" +:+ String (ascii_of_nat 194) (String (ascii_of_nat 160)
                   "1700000000:starRegistry") in
  let run := submitStar Sample.fresh "addrA" message "sig-of-addrA" "vega"
               1700000301000 1700000301002 in
  timeDifference 1700000301000 message = Js.Num 301
  /\ promise run = Rejected expired_error
  /\ head (trace run) = Some (CallReject expired_error).
Proof. by vm_compute. Qed.

(** ** The claims of the specification *)

(** C1.  When the elapsed time [now - embeddedTimestamp] of a call of
    [submitStar] exceeds 300 seconds, the returned promise is rejected with
    the expired-challenge error, whatever the signature verifier would
    answer: the rejection is the first thing the executor does, and the
    verifier is called only after it. *)
Theorem submitStar_expired_rejected_before_verification
    {Star} `{!Externals Star} (self : Blockchain)
    (address message signature : string) (star : Star) (now now_add : N)
    (elapsed : Z) :
  timeDifference now message = Js.Num elapsed ->
  300 < elapsed ->
  let run := submitStar self address message signature star now now_add in
  promise run = Rejected expired_error
  /\ exists rest,
       trace run
       = CallReject expired_error
           :: CallVerify message address signature :: rest.
Proof.
  intros Hdiff Hlate run. subst run.
  pose proof (timeDifference_expired _ _ _ Hdiff Hlate) as Hgt.
  split.
  - rewrite submitStar_promise, Hgt.
    by destruct (bitcoinMessage_verify _ _ _), (_addBlock _ _ _).1.
  - by apply submitStar_trace_expired.
Qed.

Lemma submitStar_expired_rejected_before_verification_witness :
  timeDifference 1700000301000 "addrA:1700000000:starRegistry" = Js.Num 301
  /\ 300 < 301
  /\ Sample.verify "addrA:1700000000:starRegistry" "addrA" "sig-of-addrA"
     = VTrue
  /\ promise (submitStar Sample.fresh "addrA" "addrA:1700000000:starRegistry"
                "sig-of-addrA" "vega" 1700000301000 1700000301002)
     = Rejected expired_error
  /\ exists rest,
       trace (submitStar Sample.fresh "addrA"
                "addrA:1700000000:starRegistry" "sig-of-addrA" "vega"
                1700000301000 1700000301002)
       = CallReject expired_error
           :: CallVerify "addrA:1700000000:starRegistry" "addrA"
                "sig-of-addrA" :: rest.
Proof.
  split; [by vm_compute|]. split; [lia|]. split; [by vm_compute|].
  apply (submitStar_expired_rejected_before_verification Sample.fresh
           "addrA" "addrA:1700000000:starRegistry" "sig-of-addrA" "vega"
           1700000301000 1700000301002 301); [by vm_compute | lia].
Defined.

(** C2, as stated: a message without the three-part structure makes
    [submitStar] fail.  It does not: the message below has no colon at all
    and the promise is fulfilled with the appended block. *)
Lemma submitStar_malformed_message_fulfilled :
  three_part_structure "addrA" "no colon here" = false
  /\ (exists block,
        promise (submitStar Sample.fresh "addrA" "no colon here"
                   "sig-of-addrA" "vega" 1700000010000 1700000010002)
        = Fulfilled block)
  /\ ~ (exists reason,
          promise (submitStar Sample.fresh "addrA" "no colon here"
                     "sig-of-addrA" "vega" 1700000010000 1700000010002)
          = Rejected reason).
Proof.
  split; [by vm_compute|]. split.
  - eexists. vm_compute. reflexivity.
  - intros [reason Hr]. vm_compute in Hr. discriminate.
Qed.

(** C2, amended.  [submitStar] does not look at the structure of the
    message and has no error for a malformed one.  On a consistent ledger the
    promise is rejected with the expired-challenge error when the parsed
    elapsed time exceeds 300, and is otherwise decided by the verifier alone:
    fulfilled with the appended block when it answers true, rejected with the
    signature error when it answers false, with the verification error when
    it throws.  A message without a colon has no second field, so its
    timestamp is [NaN], the expiry test does not fire and the verifier alone
    decides. *)
Theorem submitStar_outcome_without_structure_check
    {Star} `{!Externals Star} (self : Blockchain)
    (address message signature : string) (star : Star) (now now_add : N) :
  consistent self ->
  let by_verifier :=
    match bitcoinMessage_verify message address signature with
    | VTrue =>
        Fulfilled (sealed self
                     (new_Block (StarData address message signature star))
                     now_add)
    | VFalse => Rejected signature_error
    | VThrow error => Rejected (verification_error error)
    end in
  promise (submitStar self address message signature star now now_add)
  = (if Js.gt (timeDifference now message) (Js.Num 300)
     then Rejected expired_error
     else by_verifier)
  /\ (colon_free message ->
      Js.split ":" message !! 1%nat = None
      /\ embeddedTimestamp message = Js.NaN
      /\ promise (submitStar self address message signature star now now_add)
         = by_verifier).
Proof.
  intros Hc by_verifier. subst by_verifier.
  assert (promise (submitStar self address message signature star now now_add)
          = (if Js.gt (timeDifference now message) (Js.Num 300)
             then Rejected expired_error
             else match bitcoinMessage_verify message address signature with
                  | VTrue =>
                      Fulfilled
                        (sealed self
                           (new_Block
                              (StarData address message signature star))
                           now_add)
                  | VFalse => Rejected signature_error
                  | VThrow error => Rejected (verification_error error)
                  end)) as Hpromise.
  { rewrite submitStar_promise, addBlock_consistent by done.
    by destruct (Js.gt _ _), (bitcoinMessage_verify _ _ _). }
  split; [exact Hpromise|]. intros Hfree.
  pose proof (no_colon_no_second_field message Hfree) as Hfield.
  assert (embeddedTimestamp message = Js.NaN) as Hnan.
  { unfold embeddedTimestamp. by rewrite Hfield. }
  split_and!; [done..|].
  by rewrite Hpromise, (timeDifference_NaN now message Hnan).
Qed.

Lemma submitStar_outcome_without_structure_check_witness :
  consistent Sample.fresh
  /\ colon_free "no colon here"
  /\ three_part_structure "addrA" "no colon here" = false
  /\ embeddedTimestamp "no colon here" = Js.NaN
  /\ promise (submitStar Sample.fresh "addrA" "no colon here" "forged"
                "vega" 1700000010000 1700000010002)
     = Rejected signature_error.
Proof.
  assert (colon_free "no colon here") as Hfree by (simpl; by repeat split).
  split; [apply sample_fresh_consistent|]. split; [exact Hfree|].
  split; [by vm_compute|].
  destruct (submitStar_outcome_without_structure_check Sample.fresh
              "addrA" "no colon here" "forged" "vega"
              1700000010000 1700000010002 sample_fresh_consistent)
    as [_ Hmissing].
  destruct (Hmissing Hfree) as (_ & Hnan & Hpromise).
  split; [exact Hnan|]. rewrite Hpromise. by vm_compute.
Defined.

(** C3.  When the promise of [submitStar] is rejected because the challenge
    is expired or because the verifier answers false, the block with the
    payload [{address, message, signature, star}] is built and appended all
    the same: the chain is one block longer although the caller sees a
    failure. *)
Theorem submitStar_rejected_still_appends
    {Star} `{!Externals Star} (self : Blockchain)
    (address message signature : string) (star : Star) (now now_add : N) :
  consistent self ->
  (exists elapsed,
      timeDifference now message = Js.Num elapsed /\ 300 < elapsed)
  \/ bitcoinMessage_verify message address signature = VFalse ->
  let run := submitStar self address message signature star now now_add in
  (promise run = Rejected expired_error
   \/ promise run = Rejected signature_error)
  /\ exists block,
       Block.body block
       = encode_body (StarData address message signature star)
       /\ chain (ledger run) = (chain self ++ [block])%list
       /\ length (chain (ledger run)) = S (length (chain self))
       /\ height (ledger run) = height self + 1.
Proof.
  intros Hc Hwhy run. subst run. split.
  - rewrite submitStar_promise, addBlock_consistent by done. simpl.
    destruct Hwhy as [(elapsed & Hdiff & Hlate)|Hfalse].
    + rewrite (timeDifference_expired _ _ _ Hdiff Hlate).
      left. by destruct (bitcoinMessage_verify _ _ _).
    + rewrite Hfalse. destruct (Js.gt _ _); [by left|by right].
  - rewrite submitStar_ledger, addBlock_consistent by done. simpl.
    eexists. split_and!; [|done| |done].
    + apply sealed_body.
    + rewrite length_app. simpl. lia.
Qed.

Lemma submitStar_rejected_still_appends_witness :
  consistent Sample.fresh
  /\ Sample.verify "addrA:1700000000:starRegistry" "addrA" "forged" = VFalse
  /\ promise (submitStar Sample.fresh "addrA" "addrA:1700000000:starRegistry"
                "forged" "vega" 1700000010000 1700000010002)
     = Rejected signature_error
  /\ length (chain (ledger
       (submitStar Sample.fresh "addrA" "addrA:1700000000:starRegistry"
          "forged" "vega" 1700000010000 1700000010002))) = 2%nat.
Proof.
  split; [apply sample_fresh_consistent|]. split; [by vm_compute|].
  destruct (submitStar_rejected_still_appends Sample.fresh
              "addrA" "addrA:1700000000:starRegistry" "forged" "vega"
              1700000010000 1700000010002 sample_fresh_consistent)
    as [Hrejected (block & _ & _ & Hlength & _)].
  { right. by vm_compute. }
  split; [|exact Hlength].
  destruct Hrejected as [Hexpired|Hsignature]; [|exact Hsignature].
  vm_compute in Hexpired. discriminate.
Defined.

(** C4.  The block [_addBlock] appends (to a consistent ledger, from a block
    whose hash is still unset, as the constructor leaves it) carries as hash
    the digest of its own serialized content with the hash field cleared,
    taken after [time], [height] and [previousBlockHash] have been set. *)
Theorem addBlock_hash_is_digest_of_content
    {Star} `{!Externals Star} (self : Blockchain) (block : Block.t) (now : N) :
  consistent self ->
  Block.hash block = None ->
  exists appended,
    _addBlock self block now
    = (Fulfilled appended,
       mkBlockchain (chain self ++ [appended]) (height self + 1))
    /\ Block.time appended = Js.seconds_text now
    /\ Block.height appended = height self + 1
    /\ Block.previousBlockHash appended
       = last_hash (Block.previousBlockHash block) (chain self)
    /\ Block.body appended = Block.body block
    /\ Block.hash appended
       = Some (SHA256 (JSON_stringify (Block.set_hash None appended))).
Proof.
  intros Hc Hnone. exists (sealed self block now).
  split_and!; [by apply addBlock_consistent|done..|].
  by apply sealed_hash.
Qed.

Lemma addBlock_hash_is_digest_of_content_witness :
  consistent Sample.fresh
  /\ Block.hash (new_Block (StarData "addrA" "m" "s" "vega")) = None
  /\ exists appended,
       _addBlock Sample.fresh (new_Block (StarData "addrA" "m" "s" "vega"))
                 1700000010002
       = (Fulfilled appended,
          mkBlockchain (chain Sample.fresh ++ [appended])
                       (height Sample.fresh + 1))
       /\ Block.hash appended
          = Some (SHA256 (JSON_stringify (Block.set_hash None appended))).
Proof.
  split; [apply sample_fresh_consistent|]. split; [reflexivity|].
  destruct (addBlock_hash_is_digest_of_content Sample.fresh
              (new_Block (StarData "addrA" "m" "s" "vega")) 1700000010002
              sample_fresh_consistent eq_refl)
    as (appended & Hadd & _ & _ & _ & _ & Hhash).
  exists appended. by split.
Defined.

(** C5.  After any sequence of appends from the freshly initialized ledger,
    every block at a height [h > 0] sits at index [h], names the hash of the
    block at [h - 1] as its [previousBlockHash], and its hash is the digest
    recomputed from its content. *)
Theorem chain_integrity_after_appends
    {Star} `{!Externals Star} (self : Blockchain) (h : nat) (b : Block.t) :
  reachable self ->
  (0 < h)%nat ->
  chain self !! h = Some b ->
  Block.height b = Z.of_nat h
  /\ (exists p, chain self !! (h - 1)%nat = Some p
                /\ Block.previousBlockHash b = Block.hash p)
  /\ Block.hash b = Some (content_digest b).
Proof.
  intros Hr Hh Hb.
  destruct (reachable_integrity self Hr h b Hb) as (Hheight & Hhash & Hprev).
  destruct h as [|h']; [lia|].
  replace (S h' - 1)%nat with h' by lia. done.
Qed.

Lemma chain_integrity_after_appends_witness :
  reachable Sample.three_stars
  /\ (0 < 2)%nat
  /\ exists b,
       chain Sample.three_stars !! 2%nat = Some b
       /\ Block.height b = 2
       /\ (exists p, chain Sample.three_stars !! 1%nat = Some p
                     /\ Block.previousBlockHash b = Block.hash p)
       /\ Block.hash b = Some (content_digest b).
Proof.
  split; [apply sample_three_stars_reachable|]. split; [lia|].
  destruct (chain Sample.three_stars !! 2%nat) as [b|] eqn:Hb;
    [|vm_compute in Hb; discriminate].
  exists b. split; [reflexivity|].
  apply (chain_integrity_after_appends Sample.three_stars 2 b
           sample_three_stars_reachable); [lia|exact Hb].
Defined.

(** C6.  On a chain produced by genesis initialization and appends only,
    [validateChain] resolves with an error list that is empty: when the
    promise is settled, when the continuation of an awaiting caller runs,
    once all its callbacks have run, and at every moment in between. *)
Theorem validateChain_empty_after_valid_appends
    {Star} `{!Externals Star} (self : Blockchain) :
  reachable self ->
  let scan := validateChain self in
  value_when_settled scan = Some []
  /\ value_seen_by_caller scan = Some []
  /\ value_at_quiescence scan = Some []
  /\ forall n, value_after n scan = Some [].
Proof.
  intros Hr scan. subst scan.
  pose proof (reachable_linked self Hr) as Hl.
  unfold value_when_settled, value_seen_by_caller, value_at_quiescence.
  split_and!; try intros n; by apply validateChain_log_after.
Qed.

Lemma validateChain_empty_after_valid_appends_witness :
  reachable Sample.three_stars
  /\ value_at_quiescence (validateChain Sample.three_stars) = Some [].
Proof.
  split; [apply sample_three_stars_reachable|].
  apply (validateChain_empty_after_valid_appends Sample.three_stars
           sample_three_stars_reachable).
Defined.

(** C7.  The first block of every ledger the program reaches is the genesis
    block chain initialization made: its payload is [{data: 'Genesis
    Block'}], its height is 0, its [previousBlockHash] is unset, and
    [validate] accepts it whatever hash it carries. *)
Theorem genesis_block_height_parent_validate
    {Star} `{!Externals Star} (self : Blockchain) :
  reachable self ->
  exists genesis,
    chain self !! 0%nat = Some genesis
    /\ Block.body genesis = encode_body (GenesisData "Genesis Block")
    /\ Block.height genesis = 0
    /\ Block.previousBlockHash genesis = None
    /\ validate genesis = Fulfilled true
    /\ forall h, validate (Block.set_hash h genesis) = Fulfilled true.
Proof.
  intros Hr. destruct (reachable_genesis_body self Hr) as (genesis & Hg & Hbody).
  destruct (reachable_integrity self Hr 0%nat genesis Hg)
    as (Hheight & _ & Hprev).
  exists genesis. split_and!; [done..| |].
  - unfold validate. by rewrite Hheight.
  - intros h. unfold validate. simpl. by rewrite Hheight.
Qed.

Lemma genesis_block_height_parent_validate_witness :
  reachable Sample.three_stars
  /\ exists genesis,
       chain Sample.three_stars !! 0%nat = Some genesis
       /\ Block.height genesis = 0
       /\ Block.previousBlockHash genesis = None
       /\ validate genesis = Fulfilled true.
Proof.
  split; [apply sample_three_stars_reachable|].
  destruct (genesis_block_height_parent_validate Sample.three_stars
              sample_three_stars_reachable)
    as (genesis & Hg & _ & Hheight & Hprev & Hvalid & _).
  exists genesis. by split_and!.
Defined.

(** C8.  [requestMessageOwnershipVerification(address)] resolves with the
    message [{address}:{seconds}:starRegistry], where [seconds] is the clock
    (read in milliseconds, at least one second after the epoch) in whole
    seconds, and it leaves the ledger as it was. *)
Theorem requestMessage_form_and_no_state
    {Star} `{!Externals Star} (self : Blockchain) (address : string) (now : N) :
  (1000 <= now)%N ->
  requestMessageOwnershipVerification self address now
  = (Fulfilled (address +:+ ":" +:+ pretty (now `div` 1000)%N
                +:+ ":starRegistry"),
     self).
Proof.
  intros Hnow. unfold requestMessageOwnershipVerification.
  by rewrite seconds_text_seconds.
Qed.

Lemma requestMessage_form_and_no_state_witness :
  (1000 <= 1700000301999)%N
  /\ requestMessageOwnershipVerification Sample.fresh "addrA" 1700000301999
     = (Fulfilled "addrA:1700000301:starRegistry", Sample.fresh).
Proof.
  split; [lia|].
  rewrite (requestMessage_form_and_no_state Sample.fresh "addrA"
             1700000301999); [|lia].
  by vm_compute.
Defined.

(** C9.  [getStarsByWalletAddress(address)] resolves with the array that,
    when the continuation of the awaiting caller runs and from then on, holds
    the stars of exactly the blocks after the first whose decoded payload has
    the address asked for, in chain order. *)
Theorem getStarsByWalletAddress_stars_in_chain_order
    {Star} `{!Externals Star} (self : Blockchain) (address : string) :
  let scan := getStarsByWalletAddress self address in
  value_seen_by_caller scan = Some (stars_of_address address (chain self))
  /\ value_at_quiescence scan = Some (stars_of_address address (chain self)).
Proof.
  intros scan. subst scan.
  unfold value_seen_by_caller, value_at_quiescence, value_after,
    getStarsByWalletAddress, stars_of_address.
  cbn [result microtasks locals ahead_of_caller].
  rewrite firstn_all, star_reactions. done.
Qed.

(** C10.  When no block of the chain has the height asked for, and so for
    every height from the length of a reachable chain on,
    [getBlockByHeight] resolves with [null]; it does not reject. *)
Theorem getBlockByHeight_not_found
    {Star} `{!Externals Star} (self : Blockchain) (h : Z) :
  (forall b, b ∈ chain self -> Block.height b <> h)
  \/ (reachable self /\ Z.of_nat (length (chain self)) <= h) ->
  getBlockByHeight self h = Fulfilled None.
Proof.
  intros Hnone.
  assert (forall b, b ∈ chain self -> Block.height b <> h) as Hno.
  { destruct Hnone as [Hno|[Hr Hbeyond]]; [done|].
    intros b Hb.
    pose proof (integrity_heights_below _ b (reachable_integrity self Hr) Hb).
    lia. }
  unfold getBlockByHeight. by rewrite (filter_none_matches _ _ Hno).
Qed.

Lemma getBlockByHeight_not_found_witness :
  (reachable Sample.three_stars
   /\ Z.of_nat (length (chain Sample.three_stars)) <= 7)
  /\ getBlockByHeight Sample.three_stars 7 = Fulfilled None.
Proof.
  assert (reachable Sample.three_stars
          /\ Z.of_nat (length (chain Sample.three_stars)) <= 7) as Hyp.
  { split; [apply sample_three_stars_reachable|by vm_compute]. }
  split; [exact Hyp|].
  apply (getBlockByHeight_not_found Sample.three_stars 7). by right.
Defined.

(** ** Beyond the claims: more of what the ledger does *)

Section Scan.

Context {Star : Type} `{!Externals Star}.

Implicit Types (self : Blockchain) (block b : Block.t) (now : N).

Local Arguments validate : simpl never.

(** *** [validateChain] against the scan in sequence *)

Lemma validate_continuation_errors b (s : ValidateLocals) :
  validate_continuation b (validate b) s
  = mkValidateLocals (errorLog s ++ block_errors (previousHash s) b)
                     (Block.hash b).
Proof.
  unfold block_errors, validate_continuation, validate.
  destruct s as [log previous]. simpl.
  destruct (if Block.height b =? 0 then true else _); simpl;
    destruct (_ && _); simpl; by rewrite ?app_nil_r, <-?app_assoc.
Qed.

Lemma continuations_scan (blocks : list Block.t) (s : ValidateLocals) :
  run_jobs (map (fun bp => validate_continuation bp.1 bp.2) (started_on blocks))
           s
  = mkValidateLocals (errorLog s ++ scan_errors (previousHash s) blocks)
                     (last_hash (previousHash s) blocks).
Proof.
  revert s. induction blocks as [|b blocks IH]; intros s.
  - destruct s. simpl. by rewrite app_nil_r.
  - rewrite started_on_cons, map_cons, run_jobs_cons, last_hash_cons.
    cbn [fst snd]. rewrite validate_continuation_errors, IH. simpl.
    by rewrite <-app_assoc.
Qed.

Lemma validateChain_quiescence self :
  value_at_quiescence (validateChain self)
  = Some (scan_errors None (chain self)).
Proof.
  rewrite validateChain_unfold. unfold value_at_quiescence, value_after.
  cbn [result microtasks locals]. f_equal.
  rewrite firstn_all, run_jobs_app.
  rewrite <-(firstn_all (map (fun bp => validate_catch bp.2) _)).
  by rewrite catch_reactions_idle, continuations_scan.
Qed.

Lemma block_errors_nil previous b :
  block_errors previous b = []
  <-> validate b = Fulfilled true
      /\ (0 < Block.height b -> Block.previousBlockHash b = previous).
Proof.
  unfold block_errors.
  destruct (validate b) as [|[]|reason] eqn:Hv; try (by unfold validate in Hv).
  - destruct (Z.gtb_spec (Block.height b) 0) as [Hh|Hh]; simpl.
    + case_bool_decide as Hp; simpl.
      * split; [intros _; split; [done|intros _; by symmetry]|done].
      * split; [done|]. intros [_ Hlink]. destruct Hp. by rewrite Hlink by lia.
    + split; [|done]. intros _. split; [done|lia].
  - split; [done|]. by intros [[=] _].
Qed.

Lemma scan_errors_nil previous (blocks : list Block.t) :
  scan_errors previous blocks = [] <-> linked previous blocks.
Proof.
  revert previous. induction blocks as [|b blocks IH]; intros previous.
  - done.
  - simpl. rewrite app_nil, block_errors_nil, IH. tauto.
Qed.

Lemma scan_errors_link (blocks : list Block.t) previous (i : nat) p b :
  blocks !! i = Some p -> blocks !! S i = Some b ->
  0 < Block.height b -> Block.previousBlockHash b <> Block.hash p ->
  ("previousHash does not match, for block.hash="
   +:+ hash_text (Block.hash b)) ∈ scan_errors previous blocks.
Proof.
  revert previous i. induction blocks as [|x blocks IH]; intros previous i.
  - by rewrite lookup_nil.
  - destruct i as [|i]; simpl.
    + intros [= ->] Hb Hh Hne. destruct blocks as [|y blocks]; [done|].
      simpl in Hb. injection Hb as ->. simpl.
      apply elem_of_app. right. apply elem_of_app. left.
      unfold block_errors. apply elem_of_app. right.
      destruct (Z.gtb_spec (Block.height b) 0) as [_|]; [|lia].
      rewrite bool_decide_eq_false_2 by congruence. simpl. by left.
    + intros Hp Hb Hh Hne. apply elem_of_app. right. by eapply IH.
Qed.


End Scan.

Section Queries.

Context {Star : Type} `{!Externals Star}.

Implicit Types (self : Blockchain) (block b : Block.t) (now : N).

(** *** Appends *)

Lemma addBlock_start_resume self block now :
  _addBlock self block now
  = _addBlock_resume self (_addBlock_start self block now).
Proof. reflexivity. Qed.

(** The second of two overlapping appends: it resumes on the ledger the
    first one left, with the height it read before the first one pushed. *)
Lemma addBlock_resume_stale self b1 block now :
  consistent self ->
  _addBlock_resume (mkBlockchain (chain self ++ [b1]) (height self + 1))
                   (_addBlock_start self block now)
  = (Fulfilled (sealed self block now),
     mkBlockchain ((chain self ++ [b1]) ++ [sealed self block now])
                  (height self + 1 + 1)).
Proof.
  intros Hc. unfold _addBlock_resume, _addBlock_start, getChainHeight, sealed.
  cbn [chain height].
  destruct (height self >=? 0) eqn:Hh.
  - apply Z.geb_le in Hh.
    rewrite lookup_app_l by (unfold consistent in Hc; lia).
    rewrite last_lookup_consistent by done. unfold last_hash.
    destruct (last (chain self)) as [previous|] eqn:Hl; [done|].
    apply last_None in Hl. unfold consistent in Hc. rewrite Hl in Hc.
    simpl in Hc. lia.
  - assert (height self < 0) as Hneg.
    { destruct (Z.geb_spec (height self) 0); [done | lia]. }
    rewrite (consistent_empty self Hc Hneg). done.
Qed.

Lemma reachable_nonempty self : reachable self -> chain self <> [].
Proof.
  intros Hr. destruct (reachable_genesis_body self Hr) as (g & Hg & _).
  intros Hnil. by rewrite Hnil in Hg.
Qed.

Lemma reachable_height_nonneg self : reachable self -> 0 <= height self.
Proof.
  intros Hr. pose proof (reachable_consistent self Hr) as Hc.
  pose proof (reachable_nonempty self Hr) as Hne.
  unfold consistent in Hc. destruct (chain self); [done|]. simpl in Hc. lia.
Qed.

(** *** Searching by height *)

Lemma filter_height_at (blocks : list Block.t) (k : Z) (i : nat) b :
  (forall (j : nat) x, blocks !! j = Some x -> Block.height x = k + Z.of_nat j) ->
  blocks !! i = Some b ->
  filter (fun p => Block.height p = k + Z.of_nat i) blocks = [b].
Proof.
  revert k i. induction blocks as [|x blocks IH]; intros k i Hheights Hb.
  - by rewrite lookup_nil in Hb.
  - assert (forall (j : nat) y,
              blocks !! j = Some y -> Block.height y = (k + 1) + Z.of_nat j)
      as Htail.
    { intros j y Hy. rewrite (Hheights (S j) y Hy). lia. }
    destruct i as [|i].
    + injection Hb as ->. rewrite filter_cons_True.
      2:{ rewrite (Hheights 0%nat b eq_refl). lia. }
      f_equal. apply filter_none_matches.
      intros y [j Hy]%list_elem_of_lookup. rewrite (Htail j y Hy). lia.
    + rewrite filter_cons_False.
      2:{ rewrite (Hheights 0%nat x eq_refl). lia. }
      replace (k + Z.of_nat (S i)) with ((k + 1) + Z.of_nat i) by lia.
      by apply IH.
Qed.

Lemma getBlockByHeight_at self (i : nat) b :
  integrity (chain self) -> chain self !! i = Some b ->
  getBlockByHeight self (Z.of_nat i) = Fulfilled (Some b).
Proof.
  intros Hi Hb. unfold getBlockByHeight.
  replace (Z.of_nat i) with (0 + Z.of_nat i) by lia.
  rewrite (filter_height_at (chain self) 0 i b); [done| |done].
  intros j x Hx. destruct (Hi j x Hx) as [-> _]. lia.
Qed.

(** *** The stars of an address *)

Lemma getStars_seen self address :
  value_seen_by_caller (getStarsByWalletAddress self address)
  = Some (stars_of_address address (chain self)).
Proof.
  unfold value_seen_by_caller, value_after, getStarsByWalletAddress,
    stars_of_address.
  cbn [result microtasks locals ahead_of_caller].
  by rewrite firstn_all, star_reactions.
Qed.

Lemma stars_of_address_snoc address (blocks : list Block.t) b :
  blocks <> [] ->
  stars_of_address address (blocks ++ [b])
  = (stars_of_address address blocks
     ++ match decode_body (Block.body b) with
        | Some (StarData owner _ _ star) =>
            if bool_decide (address = owner) then [star] else []
        | _ => []
        end)%list.
Proof.
  intros Hne. unfold stars_of_address.
  rewrite drop_app_le by (destruct blocks; [done|simpl; lia]).
  rewrite omap_app, filter_app, omap_app. f_equal. simpl.
  destruct (decode_body (Block.body b)) as [[data|owner m sg star]|]; simpl.
  - done.
  - unfold filter, list_filter. simpl.
    case_bool_decide as Ha; case_decide as Hd; simpl; congruence.
  - done.
Qed.

(** *** The fields of a message *)

Lemma all_decimal_colon_free (s : string) : all_decimal s -> colon_free s.
Proof.
  induction s as [|c s IH]; [done|]. intros [[d Hd] Hs]. split; [|by apply IH].
  intros ->. vm_compute in Hd. discriminate.
Qed.

Lemma pretty_N_all_decimal (n : N) : all_decimal (pretty n).
Proof.
  destruct (decide (n = 0%N)) as [->|Hn].
  - split; [by eexists|done].
  - rewrite pretty_N_positive by lia. apply pretty_N_go_decimal.
Qed.

Lemma issued_message_fields (address : string) (seconds : N) :
  colon_free address ->
  Js.split ":" (address +:+ ":" +:+ pretty seconds +:+ ":starRegistry")
  = [address; pretty seconds; "starRegistry"].
Proof.
  intros Ha. rewrite (string_app_cons ":" ""), string_app_nil.
  rewrite (split_colon_free address) by done. f_equal.
  rewrite split_colon_free
    by apply all_decimal_colon_free, pretty_N_all_decimal.
  reflexivity.
Qed.

End Queries.

(** *** An append on a block the chain already holds *)



(** X2.  [initializeChain] makes the genesis block only once: called again
    on any ledger the program has reached, it changes nothing. *)
Theorem initializeChain_idempotent
    {Star} `{!Externals Star} (self : Blockchain) (now : N) :
  reachable self -> initializeChain self now = self.
Proof.
  intros Hr. pose proof (reachable_height_nonneg self Hr) as Hh.
  unfold initializeChain. rewrite bool_decide_eq_false_2; [done|lia].
Qed.

Lemma initializeChain_idempotent_witness :
  reachable Sample.three_stars
  /\ initializeChain Sample.three_stars 1700000060000 = Sample.three_stars.
Proof.
  split; [apply sample_three_stars_reachable|].
  apply (initializeChain_idempotent Sample.three_stars 1700000060000
           sample_three_stars_reachable).
Defined.

(** X3.  On every ledger the program has reached, [getChainHeight] gives
    the index of the last block: it is the length of the chain minus one, it
    is not negative, and it is the [height] field of the last block. *)
Theorem getChainHeight_is_last_index
    {Star} `{!Externals Star} (self : Blockchain) :
  reachable self ->
  getChainHeight self = Z.of_nat (length (chain self)) - 1
  /\ 0 <= getChainHeight self
  /\ exists b, last (chain self) = Some b
               /\ Block.height b = getChainHeight self.
Proof.
  intros Hr. pose proof (reachable_consistent self Hr) as Hc.
  pose proof (reachable_height_nonneg self Hr) as Hh.
  unfold getChainHeight. split_and!; [done..|].
  destruct (last (chain self)) as [b|] eqn:Hl.
  - exists b. split; [done|]. rewrite last_lookup in Hl.
    destruct (reachable_integrity self Hr _ b Hl) as [-> _].
    unfold consistent in Hc. lia.
  - apply last_None in Hl. by destruct (reachable_nonempty self Hr).
Qed.

Lemma getChainHeight_is_last_index_witness :
  reachable Sample.three_stars /\ getChainHeight Sample.three_stars = 3.
Proof.
  split; [apply sample_three_stars_reachable|].
  destruct (getChainHeight_is_last_index Sample.three_stars
              sample_three_stars_reachable) as [Hheight _].
  rewrite Hheight. by vm_compute.
Defined.

(** *** Looking blocks up *)

(** X4.  On every ledger the program has reached, [getBlockByHeight] with
    the index of a block resolves with that block, and its [height] field is
    that index. *)
Theorem getBlockByHeight_finds_block
    {Star} `{!Externals Star} (self : Blockchain) (i : nat) (b : Block.t) :
  reachable self ->
  chain self !! i = Some b ->
  getBlockByHeight self (Z.of_nat i) = Fulfilled (Some b)
  /\ Block.height b = Z.of_nat i.
Proof.
  intros Hr Hb. pose proof (reachable_integrity self Hr) as Hi.
  split; [by apply getBlockByHeight_at|]. by destruct (Hi i b Hb).
Qed.

Lemma getBlockByHeight_finds_block_witness :
  reachable Sample.three_stars
  /\ exists b,
       chain Sample.three_stars !! 2%nat = Some b
       /\ getBlockByHeight Sample.three_stars 2 = Fulfilled (Some b).
Proof.
  split; [apply sample_three_stars_reachable|].
  destruct (chain Sample.three_stars !! 2%nat) as [b|] eqn:Hb;
    [|vm_compute in Hb; discriminate].
  exists b. split; [reflexivity|].
  apply (getBlockByHeight_finds_block Sample.three_stars 2 b
           sample_three_stars_reachable Hb).
Defined.

(** X5.  After [submitStar], whatever its promise says, [getBlockByHeight]
    at the old height plus one resolves with the block that carries the
    submitted payload, and that block is the last of the chain. *)
Theorem submitStar_then_getBlockByHeight
    {Star} `{!Externals Star} (self : Blockchain)
    (address message signature : string) (star : Star) (now now_add : N) :
  reachable self ->
  let after :=
    ledger (submitStar self address message signature star now now_add) in
  exists block,
    getBlockByHeight after (height self + 1) = Fulfilled (Some block)
    /\ Block.body block
       = encode_body (StarData address message signature star)
    /\ last (chain after) = Some block.
Proof.
  intros Hr after.
  assert (reachable after) as Hra by by apply reachable_submitStar.
  pose proof (reachable_consistent self Hr) as Hc.
  assert (chain after
          = (chain self
             ++ [sealed self
                   (new_Block (StarData address message signature star))
                   now_add])%list) as Hchain.
  { unfold after. by rewrite submitStar_ledger, addBlock_consistent. }
  eexists. split_and!; [| |by rewrite Hchain, last_snoc]; [|apply sealed_body].
  unfold consistent in Hc.
  replace (height self + 1) with (Z.of_nat (length (chain self))) by lia.
  apply getBlockByHeight_at; [by apply reachable_integrity|].
  rewrite Hchain. by apply list_lookup_middle.
Qed.

Lemma submitStar_then_getBlockByHeight_witness :
  reachable Sample.fresh
  /\ exists block,
       getBlockByHeight
         (ledger (submitStar Sample.fresh "addrA" "stale" "forged" "vega"
                    1700000010000 1700000010002)) 1
       = Fulfilled (Some block)
       /\ Block.body block = "S|addrA|stale|forged|vega".
Proof.
  assert (reachable Sample.fresh) as Hr by apply reachable_new.
  split; [exact Hr|].
  destruct (submitStar_then_getBlockByHeight Sample.fresh "addrA" "stale"
              "forged" "vega" 1700000010000 1700000010002 Hr)
    as (block & Hfound & Hbody & _).
  exists block. split; [exact Hfound|]. rewrite Hbody. by vm_compute.
Defined.

(** X6.  [getBlockByHash] never rejects.  It resolves with a block of the
    chain that has the hash asked for when there is one, and with
    [undefined] exactly when no block of the chain has that hash. *)
Theorem getBlockByHash_found_iff_present
    {Star} `{!Externals Star} (self : Blockchain) (hash : string) :
  exists found,
    getBlockByHash self hash = Fulfilled found
    /\ match found with
       | Some b => b ∈ chain self /\ Block.hash b = Some hash
       | None => forall b, b ∈ chain self -> Block.hash b <> Some hash
       end.
Proof.
  unfold getBlockByHash. eexists. split; [reflexivity|].
  destruct (find _ _) as [b|] eqn:Hfind.
  - apply find_some in Hfind as [Hin Hhash].
    split; [by apply list_elem_of_In|]. by apply bool_decide_eq_true in Hhash.
  - intros b Hb Hhash. apply list_elem_of_In in Hb.
    pose proof (find_none _ _ Hfind b Hb) as Hno. simpl in Hno.
    by apply bool_decide_eq_false in Hno.
Qed.

(** *** What [validateChain] reports *)


(** X8.  The list [validateChain] ends up with is empty exactly when every
    block passes its own validation and every block with [height > 0] names
    as parent the hash of the block before it in the chain. *)
Theorem validateChain_empty_iff_linked
    {Star} `{!Externals Star} (self : Blockchain) :
  value_at_quiescence (validateChain self) = Some []
  <-> linked None (chain self).
Proof.
  rewrite validateChain_quiescence, <-scan_errors_nil.
  split; [by intros [= ->]|by intros ->].
Qed.

(** X9.  A block with [height > 0] whose [previousBlockHash] is not the hash
    of the block before it is reported: the list [validateChain] ends up with
    has the entry "previousHash does not match" for it. *)
Theorem validateChain_reports_broken_link
    {Star} `{!Externals Star} (self : Blockchain) (i : nat) (p b : Block.t) :
  chain self !! i = Some p ->
  chain self !! S i = Some b ->
  0 < Block.height b ->
  Block.previousBlockHash b <> Block.hash p ->
  exists log,
    value_at_quiescence (validateChain self) = Some log
    /\ ("previousHash does not match, for block.hash="
        +:+ hash_text (Block.hash b)) ∈ log.
Proof.
  intros Hp Hb Hh Hne. eexists. split; [apply validateChain_quiescence|].
  by apply (scan_errors_link (chain self) None i p b).
Qed.

Lemma validateChain_reports_broken_link_witness :
  exists p b log,
    chain Sample.tampered !! 1%nat = Some p
    /\ chain Sample.tampered !! 2%nat = Some b
    /\ 0 < Block.height b
    /\ Block.previousBlockHash b <> Block.hash p
    /\ value_at_quiescence (validateChain Sample.tampered) = Some log
    /\ ("previousHash does not match, for block.hash="
        +:+ hash_text (Block.hash b)) ∈ log.
Proof.
  destruct (chain Sample.tampered !! 1%nat) as [p|] eqn:Hp;
    [|vm_compute in Hp; discriminate].
  destruct (chain Sample.tampered !! 2%nat) as [b|] eqn:Hb;
    [|vm_compute in Hb; discriminate].
  assert (0 < Block.height b) as Hh.
  { vm_compute in Hb. injection Hb as <-. by vm_compute. }
  assert (Block.previousBlockHash b <> Block.hash p) as Hne.
  { vm_compute in Hp, Hb. injection Hp as <-. injection Hb as <-.
    simpl. discriminate. }
  destruct (validateChain_reports_broken_link Sample.tampered 1 p b
              Hp Hb Hh Hne) as (log & Hlog & Hin).
  exists p, b, log. by split_and!.
Defined.




(** *** Submissions *)

(** X12.  On a consistent ledger a submission whose elapsed time is at most
    300 seconds (300 itself and negative values included) and whose signature
    the verifier accepts is fulfilled with the appended block: the last block
    of the chain, one higher than before, carrying the payload. *)
Theorem submitStar_fresh_challenge_fulfilled
    {Star} `{!Externals Star} (self : Blockchain)
    (address message signature : string) (star : Star) (now now_add : N)
    (elapsed : Z) :
  consistent self ->
  timeDifference now message = Js.Num elapsed ->
  elapsed <= 300 ->
  bitcoinMessage_verify message address signature = VTrue ->
  let run := submitStar self address message signature star now now_add in
  exists block,
    promise run = Fulfilled block
    /\ last (chain (ledger run)) = Some block
    /\ Block.height block = height self + 1
    /\ Block.body block
       = encode_body (StarData address message signature star).
Proof.
  intros Hc Hdiff Hfresh Hverified run. subst run. eexists.
  split; [by eapply submitStar_fresh_accepted|].
  rewrite submitStar_ledger, addBlock_consistent by done. simpl.
  by rewrite last_snoc.
Qed.

Lemma submitStar_fresh_challenge_fulfilled_witness :
  consistent Sample.fresh
  /\ timeDifference 1700000300999 "addrA:1700000000:starRegistry"
     = Js.Num 300
  /\ 300 <= 300
  /\ Sample.verify "addrA:1700000000:starRegistry" "addrA" "sig-of-addrA"
     = VTrue
  /\ exists block,
       promise (submitStar Sample.fresh "addrA"
                  "addrA:1700000000:starRegistry" "sig-of-addrA" "vega"
                  1700000300999 1700000301002)
       = Fulfilled block
       /\ Block.height block = 1.
Proof.
  split; [apply sample_fresh_consistent|]. split; [by vm_compute|].
  split; [lia|]. split; [by vm_compute|].
  destruct (submitStar_fresh_challenge_fulfilled Sample.fresh "addrA"
              "addrA:1700000000:starRegistry" "sig-of-addrA" "vega"
              1700000300999 1700000301002 300 sample_fresh_consistent)
    as (block & Hpromise & _ & Hheight & _);
    [by vm_compute|lia|by vm_compute|].
  exists block. split; [exact Hpromise|]. rewrite Hheight. by vm_compute.
Defined.

(** X13.  Every call of [submitStar] on a consistent ledger calls the
    verifier exactly once and [_addBlock] exactly once, in that order,
    expired or not; a rejection comes before the call it belongs to is
    followed up, and [resolve] is called with the appended block at the end
    even when the promise is already rejected. *)
Theorem submitStar_calls_in_order
    {Star} `{!Externals Star} (self : Blockchain)
    (address message signature : string) (star : Star) (now now_add : N) :
  consistent self ->
  let newBlock := new_Block (StarData address message signature star) in
  trace (submitStar self address message signature star now now_add)
  = ((if Js.gt (timeDifference now message) (Js.Num 300)
      then [CallReject expired_error] else [])
     ++ [CallVerify message address signature]
     ++ match bitcoinMessage_verify message address signature with
        | VTrue => []
        | VFalse => [CallReject signature_error]
        | VThrow error => [CallReject (verification_error error)]
        end
     ++ [CallAddBlock newBlock; CallResolve (sealed self newBlock now_add)])%list.
Proof.
  intros Hc newBlock. subst newBlock. run_executor. unfold timeDifference.
  destruct (Js.gt _ _); simpl; destruct (bitcoinMessage_verify _ _ _);
    simpl; by rewrite addBlock_consistent by done.
Qed.

Lemma submitStar_calls_in_order_witness :
  consistent Sample.fresh
  /\ length (trace (submitStar Sample.fresh "addrA"
                      "addrA:1700000000:starRegistry" "forged" "vega"
                      1700000301000 1700000301002)) = 5%nat.
Proof.
  split; [apply sample_fresh_consistent|].
  rewrite (submitStar_calls_in_order Sample.fresh "addrA"
             "addrA:1700000000:starRegistry" "forged" "vega"
             1700000301000 1700000301002 sample_fresh_consistent).
  by vm_compute.
Defined.

(** X14.  A challenge issued by [requestMessageOwnershipVerification] for an
    address without a colon reads back in [submitStar]: the message has the
    three fields, the second one parses to the second it was issued in, and
    the elapsed time of a later submission is the difference of the two
    clock readings in whole seconds. *)
Theorem challenge_round_trip
    {Star} `{!Externals Star} (self : Blockchain) (address : string)
    (issued now : N) :
  colon_free address ->
  (1000 <= issued)%N ->
  (1000 <= now)%N ->
  exists message,
    requestMessageOwnershipVerification self address issued
    = (Fulfilled message, self)
    /\ three_part_structure address message = true
    /\ embeddedTimestamp message = Js.Num (Z.of_N (issued `div` 1000))
    /\ timeDifference now message
       = Js.Num (Z.of_N (now `div` 1000) - Z.of_N (issued `div` 1000)).
Proof.
  intros Haddress Hissued Hnow. eexists.
  split.
  { unfold requestMessageOwnershipVerification.
    by rewrite seconds_text_seconds. }
  assert (embeddedTimestamp
            (address +:+ ":" +:+ pretty (issued `div` 1000)%N
             +:+ ":starRegistry")
          = Js.Num (Z.of_N (issued `div` 1000))) as Hts.
  { unfold embeddedTimestamp. rewrite issued_message_fields by done.
    simpl. apply parseInt_pretty. }
  split_and!; [|done|by apply timeDifference_seconds].
  unfold three_part_structure. rewrite issued_message_fields by done.
  by rewrite !bool_decide_eq_true_2.
Qed.

Lemma challenge_round_trip_witness :
  colon_free "addrA"
  /\ (1000 <= 1700000000123)%N
  /\ (1000 <= 1700000301000)%N
  /\ exists message,
       requestMessageOwnershipVerification Sample.fresh "addrA" 1700000000123
       = (Fulfilled message, Sample.fresh)
       /\ timeDifference 1700000301000 message = Js.Num 301.
Proof.
  assert (colon_free "addrA") as Haddress by (simpl; by repeat split).
  split; [exact Haddress|]. split; [lia|]. split; [lia|].
  destruct (challenge_round_trip Sample.fresh "addrA" 1700000000123
              1700000301000 Haddress) as (message & Hissued & _ & _ & Hdiff);
    [lia|lia|].
  exists message. split; [exact Hissued|]. rewrite Hdiff. by vm_compute.
Defined.

(** X15.  After [submitStar] on a ledger the program has reached, whatever
    its promise says, the stars of the submitting address are the stars it
    had before followed by the submitted star, and the stars of every other
    address are unchanged, provided the body of the new block decodes to the
    payload it was made from. *)
Theorem submitStar_then_getStarsByWalletAddress
    {Star} `{!Externals Star} (self : Blockchain)
    (address message signature : string) (star : Star) (now now_add : N)
    (query : string) :
  reachable self ->
  decode_body (encode_body (StarData address message signature star))
  = Some (StarData address message signature star) ->
  value_seen_by_caller
    (getStarsByWalletAddress
       (ledger (submitStar self address message signature star now now_add))
       query)
  = Some (stars_of_address query (chain self)
          ++ if bool_decide (query = address) then [star] else [])%list.
Proof.
  intros Hr Hcodec. rewrite getStars_seen. f_equal.
  rewrite submitStar_ledger, addBlock_consistent
    by by apply reachable_consistent.
  cbn [chain snd].
  rewrite stars_of_address_snoc by by apply reachable_nonempty.
  rewrite sealed_body. cbn [new_Block Block.body]. by rewrite Hcodec.
Qed.

Lemma submitStar_then_getStarsByWalletAddress_witness :
  reachable Sample.three_stars
  /\ Sample.decode (Sample.encode (StarData "addrA" "stale" "forged" "sirius"))
     = Some (StarData "addrA" "stale" "forged" "sirius")
  /\ value_seen_by_caller
       (getStarsByWalletAddress
          (ledger (submitStar Sample.three_stars "addrA" "stale" "forged"
                     "sirius" 1700000060000 1700000060002)) "addrA")
     = Some ["vega"; "deneb"; "sirius"].
Proof.
  split; [apply sample_three_stars_reachable|]. split; [by vm_compute|].
  rewrite (submitStar_then_getStarsByWalletAddress Sample.three_stars
             "addrA" "stale" "forged" "sirius" 1700000060000 1700000060002
             "addrA" sample_three_stars_reachable); by vm_compute.
Defined.

(** *** Appends that overlap *)

(** X16.  Two appends that both start before either resumes read the same
    cached height.  On a consistent ledger both are fulfilled and both blocks
    are pushed, but they carry the same [height] and the same parent hash
    (the second does not link to the first), so the chain no longer has its
    blocks at the index that is their height. *)
Theorem overlapping_appends_share_height
    {Star} `{!Externals Star} (self : Blockchain)
    (block1 block2 : Block.t) (now1 now2 : N) :
  consistent self ->
  exists b1 b2,
    overlapping_appends self block1 now1 block2 now2
    = (Fulfilled b1, Fulfilled b2,
       mkBlockchain (chain self ++ [b1; b2]) (height self + 2))
    /\ Block.height b1 = height self + 1
    /\ Block.height b2 = height self + 1
    /\ Block.previousBlockHash b1
       = last_hash (Block.previousBlockHash block1) (chain self)
    /\ Block.previousBlockHash b2
       = last_hash (Block.previousBlockHash block2) (chain self)
    /\ ~ integrity (chain self ++ [b1; b2]).
Proof.
  intros Hc. exists (sealed self block1 now1), (sealed self block2 now2).
  split_and!; [|done..|].
  - unfold overlapping_appends.
    change (_addBlock_resume self (_addBlock_start self block1 now1))
      with (_addBlock self block1 now1).
    rewrite addBlock_consistent, addBlock_resume_stale by done.
    rewrite <-app_assoc. cbn [app]. do 2 f_equal. lia.
  - intros Hi.
    destruct (Hi (S (length (chain self))) (sealed self block2 now2))
      as [Hheight _].
    { rewrite lookup_app_r by lia.
      by replace (S (length (chain self)) - length (chain self))%nat
        with 1%nat by lia. }
    rewrite sealed_height in Hheight. unfold consistent in Hc. lia.
Qed.

Lemma overlapping_appends_share_height_witness :
  consistent (mkBlockchain [] (-1))
  /\ exists b1 b2,
       overlapping_appends (mkBlockchain [] (-1))
         (new_Block (GenesisData "Genesis Block")) 1700000000123
         (new_Block (StarData "addrA" "m" "sig-of-addrA" "vega"))
         1700000000124
       = (Fulfilled b1, Fulfilled b2, mkBlockchain [b1; b2] 1)
       /\ Block.height b1 = 0
       /\ Block.height b2 = 0.
Proof.
  assert (consistent (mkBlockchain [] (-1))) as Hc by done.
  split; [exact Hc|].
  destruct (overlapping_appends_share_height (mkBlockchain [] (-1))
              (new_Block (GenesisData "Genesis Block"))
              (new_Block (StarData "addrA" "m" "sig-of-addrA" "vega"))
              1700000000123 1700000000124 Hc)
    as (b1 & b2 & Hrun & Hh1 & Hh2 & _).
  exists b1, b2. split_and!; [exact Hrun|exact Hh1|exact Hh2].
Defined.
